(** * ftl/memory.h: concept instances for [std::shared_ptr] and [std::unique_ptr]

    A shallow embedding of the monoid, monad, monoidA and foldable
    instances that [include/ftl/memory.h] gives to the two smart pointers,
    over an explicit store, followed by the properties of these
    instances.

    - A heap object lives at an address ([loc]); the heap maps addresses to
      cells.  A smart pointer value is a possibly null address.
    - [std::shared_ptr<T>] is passed by value in the source, so a shared
      pointer argument is a pointer value: copies alias the same address.
      Use counts and destruction are not modelled; nothing is ever freed.
    - [std::unique_ptr<T>] is passed by reference ([const&] or [&&]), so a
      unique pointer argument is the name ([ref]) of a pointer object that
      the callee reads and, for [std::move], empties.
    - Dereferencing a pointer that does not hold a live object of the
      expected type is undefined behaviour in the source; here the
      computation has no result ([None]).
    - The pointee's [monoid<T>::append], the function given to [map] and
      the one given to [foldl] and [foldr] are pure functions of their
      arguments; the function given to [bind] returns a smart pointer and
      is a computation on the store.
    - An object passed as an rvalue to a by-value parameter is left in its
      moved-from state, given by [moved_from]. *)

From stdpp Require Import base option gmap.
From Stdlib Require Import ZArith.

Abbreviation loc := positive.
Abbreviation ref := positive.
Abbreviation ptr := (option loc).

(** ** Pointee types *)

(** What can be stored in a heap cell of type [V]. *)
Class Storable (V T : Type) := {
  to_cell : T -> V;
  of_cell : V -> option T;
  of_to_cell : forall x : T, of_cell (to_cell x) = Some x
}.

(** The interface [monoid<T>] of [ftl/concepts/monoid.h], which the pointer
    instances require of the pointee. *)
Class monoid (T : Type) := {
  monoid_id : T;
  monoid_append : T -> T -> T
}.

(** The state in which [T]'s move constructor leaves its source (the
    identity for scalars, the null pointer for smart pointers). *)
Class MoveCtor (T : Type) := moved_from : T -> T.

(** The optional value a smart pointer stands for. *)
Inductive Opt (T : Type) : Type :=
| Absent
| Holding (x : T).
Arguments Absent {T}.
Arguments Holding {T} x.

(** ** Store and computations *)

Record state (V : Type) : Type := State {
  vars : gmap ref ptr;
  heap : gmap loc V
}.
Arguments State {V} vars heap.
Arguments vars {V} s.
Arguments heap {V} s.

Definition M (V A : Type) : Type := state V -> option (A * state V).

#[global] Instance M_ret {V} : MRet (M V) :=
  fun A x s => Some (x, s).

#[global] Instance M_bind {V} : MBind (M V) :=
  fun A B f m s => match m s with Some (x, s') => f x s' | None => None end.

Definition undefined {V A} : M V A := fun _ => None.

Section Primitives.
Context {V T : Type} `{Storable V T}.

Definition heap_load (s : state V) (l : loc) : option T :=
  heap s !! l ≫= of_cell.

(** Read the object at [l]. *)
Definition load (l : loc) : M V T :=
  fun s => match heap_load s l with Some x => Some (x, s) | None => None end.

(** Overwrite the live object at [l]. *)
Definition store (l : loc) (x : T) : M V unit :=
  fun s => match heap s !! l with
           | Some _ => Some (tt, State (vars s) (<[l := to_cell x]> (heap s)))
           | None => None
           end.

(** [new T(x)], [std::make_shared<T>(x)]: a fresh object. *)
Definition new (x : T) : M V loc :=
  fun s => let l := fresh (dom (heap s)) in
           Some (l, State (vars s) (<[l := to_cell x]> (heap s))).

(** [*p] *)
Definition deref (p : ptr) : M V T :=
  match p with Some l => load l | None => undefined end.

(** [*p = x] *)
Definition assign (p : ptr) (x : T) : M V unit :=
  match p with Some l => store l x | None => undefined end.

(** The optional value that [p] stands for in [s], if [p] is null or
    points to a live [T]. *)
Definition value_of (s : state V) (p : ptr) : option (Opt T) :=
  match p with
  | None => Some Absent
  | Some l => match heap_load s l with
              | Some x => Some (Holding x)
              | None => None
              end
  end.
End Primitives.

(** [explicit operator bool] of both smart pointers. *)
Definition nonnull (p : ptr) : bool :=
  match p with Some _ => true | None => false end.

Section References.
Context {V : Type}.

(** The pointer held by the pointer object [a]. *)
Definition get_ref (a : ref) : M V ptr :=
  fun s => match vars s !! a with Some p => Some (p, s) | None => None end.

Definition set_ref (a : ref) (p : ptr) : M V unit :=
  fun s => match vars s !! a with
           | Some _ => Some (tt, State (<[a := p]> (vars s)) (heap s))
           | None => None
           end.

(** [std::move(a)] used to initialise the returned pointer: the result
    takes the address and [a] is left null. *)
Definition move_ptr (a : ref) : M V ptr :=
  p ← get_ref a; _ ← set_ref a None; mret p.

(** A new pointer object initialised with [p]: a variable, or the temporary
    that materialises a prvalue so that it can be bound to a reference
    parameter. *)
Definition new_ref (p : ptr) : M V ref :=
  fun s => let t := fresh (dom (vars s)) in
           Some (t, State (<[t := p]> (vars s)) (heap s)).

Definition value_at {T} `{Storable V T} (s : state V) (a : ref)
  : option (Opt T) :=
  match vars s !! a with Some p => value_of s p | None => None end.
End References.

(** ** [monoid<std::shared_ptr<T>>] *)

Module monoid_shared_ptr.
Section Instance.
Context {V T : Type} `{Storable V T} `{monoid T}.

Definition id : ptr := None.

Definition append (a b : ptr) : M V ptr :=
  if nonnull a && nonnull b then
    x ← deref a; y ← deref b;
    l ← new (monoid_append x y); mret (Some l)
  else if nonnull a then
    mret a
  else
    mret b.

(** The other revision of the header nests the tests. *)
Definition append_nested (a b : ptr) : M V ptr :=
  if nonnull a then
    if nonnull b then
      x ← deref a; y ← deref b;
      l ← new (monoid_append x y); mret (Some l)
    else mret a
  else
    if nonnull b then mret b
    else mret None.
End Instance.
End monoid_shared_ptr.

(** ** [monoid<std::unique_ptr<T>>] *)

Module monoid_unique_ptr.
Section Instance.
Context {V T : Type} `{Storable V T} `{monoid T} `{MoveCtor T}.

Definition id : ptr := None.

Definition make (value : T) : M V ptr :=
  l ← new value; mret (Some l).

Definition dup (p : ref) : M V ptr :=
  pp ← get_ref p; x ← deref pp; make x.

(** [append(const unique_ptr&, const unique_ptr&)] *)
Definition append_cc (a b : ref) : M V ptr :=
  pa ← get_ref a; pb ← get_ref b;
  if nonnull pa && nonnull pb then
    x ← deref pa; y ← deref pb; make (monoid_append x y)
  else if nonnull pa then dup a
  else if nonnull pb then dup b
  else mret id.

(** [append(unique_ptr&&, const unique_ptr&)].  Both operands of
    [monoid<T>::append] are read before [*a] is left moved from and
    then assigned. *)
Definition append_rc (a b : ref) : M V ptr :=
  pa ← get_ref a; pb ← get_ref b;
  if nonnull pa && nonnull pb then
    x ← deref pa; y ← deref pb;
    _ ← assign pa (moved_from x);
    _ ← assign pa (monoid_append x y);
    move_ptr a
  else if nonnull pb then dup b
  else move_ptr a.

(** [append(const unique_ptr&, unique_ptr&&)] *)
Definition append_cr (a b : ref) : M V ptr :=
  pa ← get_ref a; pb ← get_ref b;
  if nonnull pa && nonnull pb then
    x ← deref pa; y ← deref pb;
    _ ← assign pb (moved_from y);
    _ ← assign pb (monoid_append x y);
    move_ptr b
  else if nonnull pa then dup a
  else move_ptr b.

(** [append(unique_ptr&&, unique_ptr&&)] *)
Definition append_rr (a b : ref) : M V ptr :=
  pa ← get_ref a; pb ← get_ref b;
  if nonnull pa && nonnull pb then
    x ← deref pa; y ← deref pb;
    _ ← assign pb (moved_from y);
    _ ← assign pa (moved_from x);
    _ ← assign pa (monoid_append x y);
    move_ptr a
  else if nonnull pa then move_ptr a
  else move_ptr b.
End Instance.
End monoid_unique_ptr.

(** ** [monad<std::shared_ptr<T>>] *)

Module monad_shared_ptr.
Section Instance.
Context {V T U : Type} `{Storable V T} `{Storable V U}.

Definition pure (a : T) : M V ptr :=
  l ← new a; mret (Some l).

Definition map (f : T -> U) (p : ptr) : M V ptr :=
  if nonnull p then
    x ← deref p; l ← new (f x); mret (Some l)
  else
    mret None.

(** [f] returns a [std::shared_ptr<U>]. *)
Definition bind (a : ptr) (f : T -> M V ptr) : M V ptr :=
  if nonnull a then
    x ← deref a; f x
  else
    mret None.
End Instance.
End monad_shared_ptr.

(** ** [monad<std::unique_ptr<T>>] *)

Module monad_unique_ptr.
Section Instance.
Context {V T U : Type} `{Storable V T} `{Storable V U} `{MoveCtor T}.

Definition pure (a : T) : M V ptr :=
  l ← new a; mret (Some l).

(** The pointee of [p] passed as an rvalue to a by-value parameter: the
    callee gets the held value and the pointee is left moved from. *)
Definition move_pointee (p : ref) : M V T :=
  pp ← get_ref p; x ← deref pp; _ ← assign pp (moved_from x); mret x.

(** [map(F, const unique_ptr<T>&)] *)
Definition map (f : T -> U) (p : ref) : M V ptr :=
  pp ← get_ref p;
  if nonnull pp then
    x ← move_pointee p; l ← new (f x); mret (Some l)
  else
    mret None.

(** [bind(const unique_ptr<T>&, F)]; [f] returns a
    [std::unique_ptr<U>]. *)
Definition bind (a : ref) (f : T -> M V ptr) : M V ptr :=
  pa ← get_ref a;
  if nonnull pa then
    x ← move_pointee a; f x
  else
    mret None.
End Instance.

Section InPlace.
Context {V T : Type} `{Storable V T} `{MoveCtor T}.

(** [map(F, unique_ptr<T>&&)], selected when [F] maps [T] to [T]. *)
Definition map_rv (f : T -> T) (p : ref) : M V ptr :=
  pp ← get_ref p;
  _ ← (if nonnull pp then
         x ← move_pointee p; assign pp (f x)
       else mret tt);
  move_ptr p.
End InPlace.
End monad_unique_ptr.

(** ** [monoidA<std::shared_ptr<T>>] *)

Module monoidA_shared_ptr.
Section Instance.
Context {V : Type}.

Definition fail : ptr := None.

Definition orDo (a b : ptr) : M V ptr :=
  if nonnull a then mret a else mret b.
End Instance.
End monoidA_shared_ptr.

Module _dtl.
Section Helpers.
Context {V T : Type} `{Storable V T}.

Definition dup_unique (p : ref) : M V ptr :=
  pp ← get_ref p;
  if nonnull pp then
    x ← deref pp; l ← new x; mret (Some l)
  else
    mret None.
End Helpers.
End _dtl.

(** ** [monoidA<std::unique_ptr<T>>] *)

Module monoidA_unique_ptr.
Section Instance.
Context {V T : Type} `{Storable V T}.

Definition fail : ptr := None.

Definition orDo (a b : ref) : M V ptr :=
  pa ← get_ref a;
  if nonnull pa then _dtl.dup_unique a else _dtl.dup_unique b.
End Instance.
End monoidA_unique_ptr.

(** ** [foldable<std::shared_ptr<T>>] *)

Module foldable_shared_ptr.
Section Instance.
Context {V T U : Type} `{Storable V T}.

Definition foldl (fn : U -> T -> U) (z : U) (p : ptr) : M V U :=
  if nonnull p then
    x ← deref p; mret (fn z x)
  else
    mret z.

(** The source constrains [fn] as [Fn(T,U)] here but calls it as
    [fn(z, *p)], the seed first, as in [foldl]. *)
Definition foldr (fn : U -> T -> U) (z : U) (p : ptr) : M V U :=
  if nonnull p then
    x ← deref p; mret (fn z x)
  else
    mret z.
End Instance.
End foldable_shared_ptr.

(** ** [foldable<std::unique_ptr<T>>] *)

Module foldable_unique_ptr.
Section Instance.
Context {V T U : Type} `{Storable V T}.

Definition foldl (fn : U -> T -> U) (z : U) (p : ref) : M V U :=
  pp ← get_ref p;
  if nonnull pp then
    x ← deref pp; mret (fn z x)
  else
    mret z.

(** As for the shared kind, the call is [fn(z, *p)]. *)
Definition foldr (fn : U -> T -> U) (z : U) (p : ref) : M V U :=
  pp ← get_ref p;
  if nonnull pp then
    x ← deref pp; mret (fn z x)
  else
    mret z.
End Instance.
End foldable_unique_ptr.

(** ** Overload selection for [monoid<std::unique_ptr<T>>::append]

    The four overloads differ in how each operand is passed: an lvalue
    binds to [const&] (the caller keeps the pointer), an rvalue to [&&]
    (the caller gives it up). *)

Inductive pass : Type :=
| by_alias
| by_transfer.

Module unique_append.
Section Overloads.
Context {V T : Type} `{Storable V T} `{monoid T} `{MoveCtor T}.

Definition append (ka kb : pass) : ref -> ref -> M V ptr :=
  match ka, kb with
  | by_alias, by_alias => monoid_unique_ptr.append_cc
  | by_transfer, by_alias => monoid_unique_ptr.append_rc
  | by_alias, by_transfer => monoid_unique_ptr.append_cr
  | by_transfer, by_transfer => monoid_unique_ptr.append_rr
  end.

(** [append(append(a, b), c)]: the inner result is a prvalue, so it is
    passed on by transfer. *)
Definition append_left (ka kb kc : pass) (a b c : ref) : M V ptr :=
  ab ← append ka kb a b; t ← new_ref ab; append by_transfer kc t c.

(** [append(a, append(b, c))] *)
Definition append_right (ka kb kc : pass) (a b c : ref) : M V ptr :=
  bc ← append kb kc b c; t ← new_ref bc; append ka by_transfer a t.
End Overloads.
End unique_append.

(** Two pointers that do not own the same storage. *)
Definition exclusive (p q : ptr) : Prop := p = q -> p = None.

(** ** Derived [join] and [apply] *)

#[global] Instance ptr_MoveCtor : MoveCtor ptr := fun _ => None.

Module deriving_shared_ptr.
Section Derived.
Context {V T U : Type} `{Storable V T} `{Storable V U}
        `{Storable V ptr} `{Storable V (T -> U)}.

(** Modelled from the spec: [deriving_join] of [ftl/concepts/monad.h] is
    not among the sources; [join(outer)] is [bind(outer, identity)]. *)
Definition join (outer : ptr) : M V ptr :=
  monad_shared_ptr.bind (T := ptr) outer (fun inner => mret inner).

(** Modelled from the spec: [deriving_apply] of [ftl/concepts/monad.h] is
    not among the sources; [apply(wrapped_fn, wrapped_arg)] is
    [bind(wrapped_fn, \fn -> map(fn, wrapped_arg))]. *)
Definition apply (wrapped_fn wrapped_arg : ptr) : M V ptr :=
  monad_shared_ptr.bind (T := T -> U) wrapped_fn
    (fun fn => monad_shared_ptr.map (T := T) (U := U) fn wrapped_arg).
End Derived.
End deriving_shared_ptr.

Module deriving_unique_ptr.
Section Derived.
Context {V T U : Type} `{Storable V T} `{Storable V U}
        `{Storable V ptr} `{Storable V (T -> U)}
        `{MoveCtor T} `{MoveCtor (T -> U)}.

(** Modelled from the spec: [deriving_join] of [ftl/concepts/monad.h] is
    not among the sources; [join(outer)] is [bind(outer, identity)]. *)
Definition join (outer : ref) : M V ptr :=
  monad_unique_ptr.bind (T := ptr) outer (fun inner => mret inner).

(** Modelled from the spec: [deriving_apply] of [ftl/concepts/monad.h] is
    not among the sources; [apply(wrapped_fn, wrapped_arg)] is
    [bind(wrapped_fn, \fn -> map(fn, wrapped_arg))]. *)
Definition apply (wrapped_fn wrapped_arg : ref) : M V ptr :=
  monad_unique_ptr.bind (T := T -> U) wrapped_fn
    (fun fn => monad_unique_ptr.map (T := T) (U := U) fn wrapped_arg).
End Derived.
End deriving_unique_ptr.

(** ** What the instances are specified to compute on optional values *)

Section Tables.
Context {T U : Type}.

Definition append_table `{monoid T} (a b : Opt T) : Opt T :=
  match a, b with
  | Absent, Absent => Absent
  | Holding x, Absent => Holding x
  | Absent, Holding y => Holding y
  | Holding x, Holding y => Holding (monoid_append x y)
  end.

Definition map_table (f : T -> U) (o : Opt T) : Opt U :=
  match o with Absent => Absent | Holding x => Holding (f x) end.

Definition orElse_table (a b : Opt T) : Opt T :=
  match a with Holding _ => a | Absent => b end.

Definition fold_table (f : U -> T -> U) (seed : U) (o : Opt T) : U :=
  match o with Absent => seed | Holding x => f seed x end.

Definition apply_table (f : Opt (T -> U)) (o : Opt T) : Opt U :=
  match f, o with
  | Holding g, Holding x => Holding (g x)
  | _, _ => Absent
  end.
End Tables.

(** ** A concrete cell type and pointee, for examples *)

Inductive cell : Type :=
| Cint (z : Z)
| Cptr (p : ptr)
| Cfun (f : Z -> Z).

#[global] Instance cell_int : Storable cell Z := {|
  to_cell := Cint;
  of_cell c := match c with Cint z => Some z | _ => None end;
  of_to_cell := fun _ => eq_refl
|}.

#[global] Instance cell_ptr : Storable cell ptr := {|
  to_cell := Cptr;
  of_cell c := match c with Cptr p => Some p | _ => None end;
  of_to_cell := fun _ => eq_refl
|}.

#[global] Instance cell_fun : Storable cell (Z -> Z) := {|
  to_cell := Cfun;
  of_cell c := match c with Cfun f => Some f | _ => None end;
  of_to_cell := fun _ => eq_refl
|}.

#[global] Instance int_MoveCtor : MoveCtor Z := fun z => z.

#[global] Instance fun_MoveCtor : MoveCtor (Z -> Z) := fun f => f.

(** Modelled from the spec: [sum_monoid<int>] of [ftl/concepts/monoid.h] is
    not among the sources; append is addition and the identity is 0. *)
#[global] Instance sum_monoid : monoid Z := {|
  monoid_id := 0%Z;
  monoid_append := Z.add
|}.

(** Run in [s], the computation [m] returns a pointer that stands for
    [o]. *)
Definition yields {V T : Type} `{Storable V T}
  (m : M V ptr) (s : state V) (o : Opt T) : Prop :=
  exists r s', m s = Some (r, s') /\ value_of s' r = Some o.

(** What every overload of the exclusive [append] does: the result stands
    for the table entry; a pointer object changes only if it is an operand
    passed by transfer; a live object changes only if it is the pointee of
    an operand passed by transfer. *)
Definition append_post {V T : Type} `{Storable V T} `{monoid T}
    (ka kb : pass) (s : state V) (a b : ref) (pa pb : ptr)
    (oa ob : Opt T) (r : ptr) (s' : state V) : Prop :=
  value_of s' r = Some (append_table oa ob) /\
  (forall c, c ≠ a \/ ka = by_alias -> c ≠ b \/ kb = by_alias ->
             vars s' !! c = vars s !! c) /\
  (forall l, is_Some (heap s !! l) ->
             Some l ≠ pa \/ ka = by_alias -> Some l ≠ pb \/ kb = by_alias ->
             heap s' !! l = heap s !! l).

(** Two operands may be the same pointer object, or own the same storage,
    only if both are passed by alias. *)
Definition separate (kx ky : pass) (rx ry : ref) (px py : ptr) : Prop :=
  (kx = by_alias /\ ky = by_alias) \/ (rx ≠ ry /\ exclusive px py).

(** What [join] is specified to compute on a doubly wrapped optional
    value, and the doubly wrapped value a pointer to a pointer stands
    for. *)
Definition join_table {T : Type} (oo : Opt (Opt T)) : Opt T :=
  match oo with
  | Holding (Holding x) => Holding x
  | Holding Absent => Absent
  | Absent => Absent
  end.

Definition nested_value_of {V T : Type} `{Storable V T} `{Storable V ptr}
    (s : state V) (outer : ptr) : option (Opt (Opt T)) :=
  match value_of (T := ptr) s outer with
  | Some Absent => Some Absent
  | Some (Holding inner) =>
      match value_of (T := T) s inner with
      | Some o => Some (Holding o)
      | None => None
      end
  | None => None
  end.

(** ** Well-formed inputs *)

(** A pointer, or the pointer held by a pointer object, is well formed when
    it is null or the address of a live [T]: it stands for an optional
    value. *)
Definition inputs_valid {V T : Type} `{Storable V T}
    (s : state V) (a b : ptr) (ra rb : ref) : Prop :=
  is_Some (value_of (T := T) s a) /\ is_Some (value_of (T := T) s b) /\
  is_Some (value_at (T := T) s ra) /\ is_Some (value_at (T := T) s rb).

(** The computation [m] returns and leaves the inputs well formed. *)
Definition preserves {V T A : Type} `{Storable V T}
    (m : M V A) (s : state V) (a b : ptr) (ra rb : ref) : Prop :=
  exists (r : A) (s' : state V),
    m s = Some (r, s') /\ inputs_valid (T := T) s' a b ra rb.

(** Every live [T] is still a live [T], and every pointer object holds
    what it held or has been emptied. *)
Definition keeps_objects {V : Type} (T : Type) `{Storable V T}
    (h h' : gmap loc V) : Prop :=
  forall l, is_Some (h !! l ≫= of_cell (T := T)) ->
            is_Some (h' !! l ≫= of_cell (T := T)).

Definition sound_step {V : Type} (T : Type) `{Storable V T}
    (s s' : state V) : Prop :=
  (forall r p, vars s !! r = Some p ->
               vars s' !! r = Some p \/ vars s' !! r = Some None) /\
  keeps_objects T (heap s) (heap s').

(** The claim that an exclusive [append] leaves both operands empty. *)
Definition leaves_sources_empty {V : Type}
    (op : ref -> ref -> M V ptr) (s : state V) (a b : ref) : Prop :=
  forall r s', op a b s = Some (r, s') ->
               vars s' !! a = Some None /\ vars s' !! b = Some None.

(** Later assignments through pointers, in order: [*p = x] for each
    [(p, x)] of [ws]. *)
Definition mutate {V T : Type} `{Storable V T}
    (ws : list (ptr * T)) : M V unit :=
  foldr (fun w k => _ ← assign w.1 w.2; k) (mret tt) ws.

(** A small store.  The pointer objects [1], [2], [3] hold the null
    pointer and the addresses [10] and [11] of two integers; [4] holds the
    address [12] of a function and [5] the address [13] of a pointer to
    the integer at [14]. *)
Definition example_state : state cell :=
  State (<[1%positive := None]>
           (<[2%positive := Some 10%positive]>
              (<[3%positive := Some 11%positive]>
                 (<[4%positive := Some 12%positive]>
                    (<[5%positive := Some 13%positive]> ∅)))))
        (<[10%positive := Cint 2]>
           (<[11%positive := Cint 5]>
              (<[12%positive := Cfun Z.opp]>
                 (<[13%positive := Cptr (Some 14%positive)]>
                    (<[14%positive := Cint 9]> ∅))))).

(** ** The tests of the [memory] test set, as computations

    Each runs from the empty store; [p ^ q] is [monoid::append],
    [f % p] is [map] and [pf * p] is [apply]. *)

Definition result_of {A : Type} (m : M cell A) : option A :=
  fst <$> m (State ∅ ∅).

(** [auto pr = p1 ^ p2 ^ p1 ^ p3 ^ p1; return *pr;] on shared pointers, with
    [p1] empty and [p2], [p3] holding [sum(2)]. *)
Definition test_append_shared : M cell Z :=
  p2 ← monad_shared_ptr.pure 2%Z;
  p3 ← monad_shared_ptr.pure 2%Z;
  r1 ← monoid_shared_ptr.append monoid_shared_ptr.id p2;
  r2 ← monoid_shared_ptr.append r1 monoid_shared_ptr.id;
  r3 ← monoid_shared_ptr.append r2 p3;
  pr ← monoid_shared_ptr.append r3 monoid_shared_ptr.id;
  deref pr.

(** [auto pr = ((p1 ^ p2) ^ p1) ^ (p1 ^ (p3 ^ p1)); return *pr;] on unique
    pointers: the parentheses make the call go through every overload. *)
Definition test_append_unique : M cell Z :=
  p1 ← new_ref monoid_unique_ptr.id;
  o2 ← monad_unique_ptr.pure 2%Z; p2 ← new_ref o2;
  o3 ← monad_unique_ptr.pure 2%Z; p3 ← new_ref o3;
  r1 ← monoid_unique_ptr.append_cc p1 p2; t1 ← new_ref r1;
  r2 ← monoid_unique_ptr.append_rc t1 p1; t2 ← new_ref r2;
  r3 ← monoid_unique_ptr.append_cc p3 p1; t3 ← new_ref r3;
  r4 ← monoid_unique_ptr.append_cr p1 t3; t4 ← new_ref r4;
  pr ← monoid_unique_ptr.append_rr t2 t4;
  deref pr.

(** [f % std::make_shared<int>(3)] and [f % std::unique_ptr<int>(new int(3))]
    for [f] the negation. *)
Definition test_map : M cell (Z * Z) :=
  p ← monad_shared_ptr.pure 3%Z;
  spr ← monad_shared_ptr.map Z.opp p;
  o ← monad_unique_ptr.pure 3%Z; t ← new_ref o;
  upr ← monad_unique_ptr.map_rv Z.opp t;
  x ← deref spr; y ← deref upr; mret (x, y).

(** [f % p1 * p2] on shared pointers, for [f] the curried subtraction. *)
Definition test_apply_shared (p1 p2 : M cell ptr) : M cell ptr :=
  a ← p1; b ← p2;
  pf ← monad_shared_ptr.map (T := Z) (U := Z -> Z) Z.sub a;
  deriving_shared_ptr.apply (T := Z) (U := Z) pf b.

(** [f % p1 * p2] on unique pointers held by variables. *)
Definition test_apply_unique (p1 p2 : M cell ptr) : M cell ptr :=
  a ← p1; ra ← new_ref a; b ← p2; rb ← new_ref b;
  pf ← monad_unique_ptr.map (T := Z) (U := Z -> Z) Z.sub ra;
  tf ← new_ref pf;
  deriving_unique_ptr.apply (T := Z) (U := Z) tf rb.

(** [foldl(plus, 1, p)] and [foldr(plus, 1, p)] on a shared pointer. *)
Definition test_fold (p : M cell ptr) : M cell (Z * Z) :=
  a ← p;
  x ← foldable_shared_ptr.foldl Z.add 1%Z a;
  y ← foldable_shared_ptr.foldr Z.add 1%Z a;
  mret (x, y).

(** ** The other revision of [monoid<std::unique_ptr<T>>]

    The earlier revision of the header writes the four overloads of
    [append] with nested tests, and tests the operands in another order. *)

Module nested_monoid_unique_ptr.
Section Instance.
Context {V T : Type} `{Storable V T} `{monoid T} `{MoveCtor T}.

Definition id : ptr := None.

Definition make (value : T) : M V ptr :=
  l ← new value; mret (Some l).

Definition dup (p : ref) : M V ptr :=
  pp ← get_ref p; x ← deref pp; make x.

(** [append(const unique_ptr&, const unique_ptr&)] *)
Definition append_cc (a b : ref) : M V ptr :=
  pa ← get_ref a;
  if nonnull pa then
    pb ← get_ref b;
    if nonnull pb then
      x ← deref pa; y ← deref pb; make (monoid_append x y)
    else dup a
  else
    pb ← get_ref b;
    if nonnull pb then dup b
    else mret id.

(** [append(unique_ptr&&, const unique_ptr&)] *)
Definition append_rc (a b : ref) : M V ptr :=
  pb ← get_ref b;
  if nonnull pb then
    pa ← get_ref a;
    if nonnull pa then
      x ← deref pa; y ← deref pb;
      _ ← assign pa (moved_from x);
      _ ← assign pa (monoid_append x y);
      move_ptr a
    else dup b
  else
    move_ptr a.

(** [append(const unique_ptr&, unique_ptr&&)] *)
Definition append_cr (a b : ref) : M V ptr :=
  pa ← get_ref a;
  if nonnull pa then
    pb ← get_ref b;
    if nonnull pb then
      x ← deref pa; y ← deref pb;
      _ ← assign pb (moved_from y);
      _ ← assign pb (monoid_append x y);
      move_ptr b
    else dup a
  else
    move_ptr b.

(** [append(unique_ptr&&, unique_ptr&&)]: the assignment is guarded by the
    test of [b], the move of [a] is not. *)
Definition append_rr (a b : ref) : M V ptr :=
  pa ← get_ref a;
  if nonnull pa then
    pb ← get_ref b;
    _ ← (if nonnull pb then
           x ← deref pa; y ← deref pb;
           _ ← assign pb (moved_from y);
           _ ← assign pa (moved_from x);
           assign pa (monoid_append x y)
         else mret tt);
    move_ptr a
  else
    move_ptr b.
End Instance.
End nested_monoid_unique_ptr.

(** ** Outcomes *)

(** The result of a computation and the heap it leaves, forgetting the
    pointer objects (temporaries among them). *)
Definition outcome {V A : Type} (m : M V A) (s : state V)
    : option (A * gmap loc V) :=
  (fun rs => (rs.1, heap rs.2)) <$> m s.

(** ** Exclusive ownership *)



(** ** Operations that only allocate *)

(** [m] returns and leaves every pointer object and every live object as
    it was: all it may do to the store is allocate. *)
Definition only_allocates {V A : Type} (m : M V A) (s : state V) : Prop :=
  exists (r : A) (s' : state V),
    m s = Some (r, s') /\ vars s' = vars s /\ heap s ⊆ heap s'.

(** * Properties *)

(** ** Running computations *)

Section Run.
Context {V : Type}.

Lemma run_bind {A B} (m : M V A) (k : A -> M V B) (s : state V) :
  (m ≫= k) s = match m s with Some (x, s') => k x s' | None => None end.
Proof. reflexivity. Qed.

Lemma run_ret {A} (x : A) (s : state V) : (mret x : M V A) s = Some (x, s).
Proof. reflexivity. Qed.

Lemma run_get_ref (a : ref) (p : ptr) (s : state V) :
  vars s !! a = Some p -> get_ref a s = Some (p, s).
Proof. intros Ha. unfold get_ref. by rewrite Ha. Qed.

Lemma run_set_ref (a : ref) (p q : ptr) (s : state V) :
  vars s !! a = Some p ->
  set_ref a q s = Some (tt, State (<[a := q]> (vars s)) (heap s)).
Proof. intros Ha. unfold set_ref. by rewrite Ha. Qed.

Lemma run_move_ptr (a : ref) (p : ptr) (s : state V) :
  vars s !! a = Some p ->
  move_ptr a s = Some (p, State (<[a := None]> (vars s)) (heap s)).
Proof.
  intros Ha. unfold move_ptr.
  rewrite run_bind, (run_get_ref a p) by done.
  rewrite run_bind, (run_set_ref a p) by done.
  reflexivity.
Qed.
End Run.

Section RunHeap.
Context {V T : Type} `{Storable V T}.

Lemma heap_load_vars (vs vs' : gmap ref ptr) (h : gmap loc V) (l : loc) :
  heap_load (T := T) (State vs h) l = heap_load (State vs' h) l.
Proof. reflexivity. Qed.

Lemma heap_load_insert_eq vs (h : gmap loc V) (l : loc) (x : T) :
  heap_load (State vs (<[l := to_cell x]> h)) l = Some x.
Proof.
  unfold heap_load; simpl. rewrite lookup_insert_eq. simpl. apply of_to_cell.
Qed.

Lemma heap_load_insert_ne vs (h : gmap loc V) (l l' : loc) (c : V) :
  l ≠ l' ->
  heap_load (T := T) (State vs (<[l := c]> h)) l' = heap_load (State vs h) l'.
Proof. intros Hne. unfold heap_load; simpl. by rewrite lookup_insert_ne. Qed.

Lemma heap_load_live (s : state V) (l : loc) (x : T) :
  heap_load s l = Some x -> is_Some (heap s !! l).
Proof.
  unfold heap_load. destruct (heap s !! l); [eauto | discriminate].
Qed.

Lemma fresh_not_live (s : state V) : heap s !! fresh (dom (heap s)) = None.
Proof. apply not_elem_of_dom, is_fresh. Qed.

Lemma fresh_ne_live (s : state V) (l : loc) :
  is_Some (heap s !! l) -> fresh (dom (heap s)) ≠ l.
Proof.
  intros Hl <-. rewrite fresh_not_live in Hl. by destruct Hl.
Qed.

Lemma run_load (s : state V) (l : loc) (x : T) :
  heap_load s l = Some x -> load l s = Some (x, s).
Proof. intros Hl. unfold load. by rewrite Hl. Qed.

Lemma run_store (s : state V) (l : loc) (x : T) :
  is_Some (heap s !! l) ->
  store l x s = Some (tt, State (vars s) (<[l := to_cell x]> (heap s))).
Proof. intros [c Hc]. unfold store. by rewrite Hc. Qed.

Lemma run_new (s : state V) (x : T) :
  new x s = Some (fresh (dom (heap s)),
                  State (vars s) (<[fresh (dom (heap s)) := to_cell x]> (heap s))).
Proof. reflexivity. Qed.

Lemma value_of_null (s : state V) : value_of (T := T) s None = Some Absent.
Proof. reflexivity. Qed.

Lemma value_of_holding (s : state V) (l : loc) (x : T) :
  heap_load s l = Some x -> value_of s (Some l) = Some (Holding x).
Proof. intros Hl. simpl. by rewrite Hl. Qed.

Lemma value_of_inv (s : state V) (p : ptr) (o : Opt T) :
  value_of s p = Some o ->
  (p = None /\ o = Absent) \/
  (exists l x, p = Some l /\ o = Holding x /\ heap_load s l = Some x).
Proof.
  destruct p as [l|]; simpl.
  - destruct (heap_load s l) as [x|] eqn:Hl; [|discriminate].
    intros [= <-]. right. by exists l, x.
  - intros [= <-]. by left.
Qed.

(** A fresh object standing for [x]. *)
Lemma value_of_new (s : state V) (x : T) :
  value_of (State (vars s) (<[fresh (dom (heap s)) := to_cell x]> (heap s)))
           (Some (fresh (dom (heap s)))) = Some (Holding x).
Proof. apply value_of_holding, heap_load_insert_eq. Qed.
End RunHeap.

Lemma live_insert {V} (h : gmap loc V) (l l' : loc) (c : V) :
  is_Some (h !! l) -> is_Some (<[l' := c]> h !! l).
Proof.
  intros Hl. rewrite lookup_insert_is_Some.
  destruct (decide (l' = l)); auto.
Qed.

Ltac live :=
  simpl; repeat apply live_insert;
  first [ eassumption
        | match goal with
          | Hx : heap_load ?s ?l = Some _ |- is_Some (heap ?s !! ?l) =>
              exact (heap_load_live _ _ _ Hx)
          end ].

Ltac run_side := simpl; first [eassumption | live].

(** One step of a computation whose head is a primitive. *)
Ltac run_step :=
  rewrite run_bind;
  first [ erewrite @run_get_ref by run_side
        | erewrite @run_load by run_side
        | erewrite @run_store by run_side
        | erewrite @run_move_ptr by run_side
        | rewrite @run_new
        | rewrite @run_ret ];
  cbv beta iota.

(** ** The shared monoid instance, case by case *)

Section SharedMonoid.
Context {V T : Type} `{Storable V T} `{monoid T}.
Import monoid_shared_ptr.

Lemma shared_append_both (s : state V) (la lb : loc) (x y : T) :
  heap_load s la = Some x -> heap_load s lb = Some y ->
  append (Some la) (Some lb) s =
    Some (Some (fresh (dom (heap s))),
          State (vars s)
                (<[fresh (dom (heap s)) := to_cell (monoid_append x y)]>
                   (heap s))).
Proof.
  intros Hx Hy. unfold append. simpl. do 3 run_step. reflexivity.
Qed.

Lemma shared_append_left (s : state V) (l : loc) :
  append (Some l) None s = Some (Some l, s).
Proof. reflexivity. Qed.

Lemma shared_append_right (s : state V) (b : ptr) :
  append None b s = Some (b, s).
Proof. reflexivity. Qed.

Lemma append_nested_eq (a b : ptr) : append_nested a b = append a b.
Proof. by destruct a, b. Qed.

Lemma shared_append_yields (s : state V) (a b : ptr) (oa ob : Opt T) :
  value_of s a = Some oa -> value_of s b = Some ob ->
  yields (append a b) s (append_table oa ob).
Proof.
  intros Ha Hb.
  destruct (value_of_inv _ _ _ Ha) as [[-> ->]|(la & x & -> & -> & Hx)].
  - exists b, s. split; [apply shared_append_right|].
    rewrite Hb. by destruct ob.
  - destruct (value_of_inv _ _ _ Hb) as [[-> ->]|(lb & y & -> & -> & Hy)].
    + exists (Some la), s. split; [apply shared_append_left|done].
    + eexists _, _. split; [by apply shared_append_both|].
      apply value_of_new.
Qed.
End SharedMonoid.

(** ** The exclusive monoid instance, case by case *)

Section UniqueMonoid.
Context {V T : Type} `{Storable V T} `{monoid T} `{MoveCtor T}.
Import monoid_unique_ptr.

Lemma run_make (s : state V) (x : T) :
  make x s = Some (Some (fresh (dom (heap s))),
                   State (vars s)
                         (<[fresh (dom (heap s)) := to_cell x]> (heap s))).
Proof. reflexivity. Qed.

Lemma run_dup (s : state V) (p : ref) (l : loc) (x : T) :
  vars s !! p = Some (Some l) -> heap_load s l = Some x ->
  dup p s = Some (Some (fresh (dom (heap s))),
                  State (vars s)
                        (<[fresh (dom (heap s)) := to_cell x]> (heap s))).
Proof.
  intros Hp Hx. unfold dup. run_step. simpl. run_step. apply run_make.
Qed.

(** *** [append(const&, const&)] *)

Lemma append_cc_both (s : state V) (a b : ref) (la lb : loc) (x y : T) :
  vars s !! a = Some (Some la) -> vars s !! b = Some (Some lb) ->
  heap_load s la = Some x -> heap_load s lb = Some y ->
  append_cc a b s =
    Some (Some (fresh (dom (heap s))),
          State (vars s)
                (<[fresh (dom (heap s)) := to_cell (monoid_append x y)]>
                   (heap s))).
Proof.
  intros Ha Hb Hx Hy. unfold append_cc. do 2 run_step. simpl.
  do 2 run_step. apply run_make.
Qed.

Lemma append_cc_left (s : state V) (a b : ref) (la : loc) (x : T) :
  vars s !! a = Some (Some la) -> vars s !! b = Some None ->
  heap_load s la = Some x ->
  append_cc a b s =
    Some (Some (fresh (dom (heap s))),
          State (vars s) (<[fresh (dom (heap s)) := to_cell x]> (heap s))).
Proof.
  intros Ha Hb Hx. unfold append_cc. do 2 run_step. simpl.
  by eapply run_dup.
Qed.

Lemma append_cc_right (s : state V) (a b : ref) (lb : loc) (y : T) :
  vars s !! a = Some None -> vars s !! b = Some (Some lb) ->
  heap_load s lb = Some y ->
  append_cc a b s =
    Some (Some (fresh (dom (heap s))),
          State (vars s) (<[fresh (dom (heap s)) := to_cell y]> (heap s))).
Proof.
  intros Ha Hb Hy. unfold append_cc. do 2 run_step. simpl.
  by eapply run_dup.
Qed.

Lemma append_cc_neither (s : state V) (a b : ref) :
  vars s !! a = Some None -> vars s !! b = Some None ->
  append_cc a b s = Some (None, s).
Proof. intros Ha Hb. unfold append_cc. do 2 run_step. reflexivity. Qed.

(** *** [append(&&, const&)] *)

Lemma append_rc_both (s : state V) (a b : ref) (la lb : loc) (x y : T) :
  vars s !! a = Some (Some la) -> vars s !! b = Some (Some lb) ->
  heap_load s la = Some x -> heap_load s lb = Some y ->
  append_rc a b s =
    Some (Some la,
          State (<[a := None]> (vars s))
                (<[la := to_cell (monoid_append x y)]>
                   (<[la := to_cell (moved_from x)]> (heap s)))).
Proof.
  intros Ha Hb Hx Hy. unfold append_rc. do 2 run_step. simpl.
  do 4 run_step. by erewrite run_move_ptr by run_side.
Qed.

Lemma append_rc_right (s : state V) (a b : ref) (lb : loc) (y : T) :
  vars s !! a = Some None -> vars s !! b = Some (Some lb) ->
  heap_load s lb = Some y ->
  append_rc a b s =
    Some (Some (fresh (dom (heap s))),
          State (vars s) (<[fresh (dom (heap s)) := to_cell y]> (heap s))).
Proof.
  intros Ha Hb Hy. unfold append_rc. do 2 run_step. simpl.
  by eapply run_dup.
Qed.

Lemma append_rc_move (s : state V) (a b : ref) (pa : ptr) :
  vars s !! a = Some pa -> vars s !! b = Some None ->
  append_rc a b s = Some (pa, State (<[a := None]> (vars s)) (heap s)).
Proof.
  intros Ha Hb. unfold append_rc. do 2 run_step.
  replace (nonnull pa && nonnull None) with false by by destruct pa.
  simpl. by apply run_move_ptr.
Qed.

(** *** [append(const&, &&)] *)

Lemma append_cr_both (s : state V) (a b : ref) (la lb : loc) (x y : T) :
  vars s !! a = Some (Some la) -> vars s !! b = Some (Some lb) ->
  heap_load s la = Some x -> heap_load s lb = Some y ->
  append_cr a b s =
    Some (Some lb,
          State (<[b := None]> (vars s))
                (<[lb := to_cell (monoid_append x y)]>
                   (<[lb := to_cell (moved_from y)]> (heap s)))).
Proof.
  intros Ha Hb Hx Hy. unfold append_cr. do 2 run_step. simpl.
  do 4 run_step. by erewrite run_move_ptr by run_side.
Qed.

Lemma append_cr_left (s : state V) (a b : ref) (la : loc) (x : T) :
  vars s !! a = Some (Some la) -> vars s !! b = Some None ->
  heap_load s la = Some x ->
  append_cr a b s =
    Some (Some (fresh (dom (heap s))),
          State (vars s) (<[fresh (dom (heap s)) := to_cell x]> (heap s))).
Proof.
  intros Ha Hb Hx. unfold append_cr. do 2 run_step. simpl.
  by eapply run_dup.
Qed.

Lemma append_cr_move (s : state V) (a b : ref) (pb : ptr) :
  vars s !! a = Some None -> vars s !! b = Some pb ->
  append_cr a b s = Some (pb, State (<[b := None]> (vars s)) (heap s)).
Proof.
  intros Ha Hb. unfold append_cr. do 2 run_step. simpl.
  by apply run_move_ptr.
Qed.

(** *** [append(&&, &&)] *)

Lemma append_rr_both (s : state V) (a b : ref) (la lb : loc) (x y : T) :
  vars s !! a = Some (Some la) -> vars s !! b = Some (Some lb) ->
  heap_load s la = Some x -> heap_load s lb = Some y ->
  append_rr a b s =
    Some (Some la,
          State (<[a := None]> (vars s))
                (<[la := to_cell (monoid_append x y)]>
                   (<[la := to_cell (moved_from x)]>
                      (<[lb := to_cell (moved_from y)]> (heap s))))).
Proof.
  intros Ha Hb Hx Hy. unfold append_rr. do 2 run_step. simpl.
  do 5 run_step. by erewrite run_move_ptr by run_side.
Qed.

Lemma append_rr_left (s : state V) (a b : ref) (la : loc) :
  vars s !! a = Some (Some la) -> vars s !! b = Some None ->
  append_rr a b s = Some (Some la, State (<[a := None]> (vars s)) (heap s)).
Proof.
  intros Ha Hb. unfold append_rr. do 2 run_step. simpl.
  by apply run_move_ptr.
Qed.

Lemma append_rr_move (s : state V) (a b : ref) (pb : ptr) :
  vars s !! a = Some None -> vars s !! b = Some pb ->
  append_rr a b s = Some (pb, State (<[b := None]> (vars s)) (heap s)).
Proof.
  intros Ha Hb. unfold append_rr. do 2 run_step. simpl.
  by apply run_move_ptr.
Qed.
End UniqueMonoid.

(** ** Values and footprints *)

Section Values.
Context {V T : Type} `{Storable V T}.

(** The value a pointer stands for depends on the heap only. *)
Lemma value_of_vars (vs vs' : gmap ref ptr) (h : gmap loc V) (p : ptr) :
  value_of (T := T) (State vs h) p = value_of (State vs' h) p.
Proof. reflexivity. Qed.

Lemma value_of_moved (s : state V) (vs : gmap ref ptr) (p : ptr) :
  value_of (T := T) (State vs (heap s)) p = value_of s p.
Proof. reflexivity. Qed.

Lemma value_of_agree (s s' : state V) (p : ptr) :
  (forall l, p = Some l -> heap s' !! l = heap s !! l) ->
  value_of (T := T) s' p = value_of s p.
Proof.
  intros Hp. destruct p as [l|]; [|done].
  simpl. unfold heap_load. by rewrite (Hp l).
Qed.

Lemma value_of_live (s : state V) (l : loc) (o : Opt T) :
  value_of s (Some l) = Some o -> is_Some (heap s !! l).
Proof.
  simpl. destruct (heap_load s l) as [x|] eqn:Hl; [|discriminate].
  intros _. by eapply heap_load_live.
Qed.

Lemma value_of_written vs (h : gmap loc V) (l : loc) (x : T) :
  value_of (State vs (<[l := to_cell x]> h)) (Some l) = Some (Holding x).
Proof. apply value_of_holding, heap_load_insert_eq. Qed.
End Values.

Ltac frame_heap :=
  intros ? ? [?|?] [?|?]; try discriminate; simpl;
  repeat (rewrite lookup_insert_ne;
          [|first [by apply fresh_ne_live | congruence]]);
  reflexivity.

Ltac frame_vars :=
  intros ? [?|?] [?|?]; try discriminate; simpl;
  repeat (rewrite lookup_insert_ne; [|congruence]);
  reflexivity.

Section UniqueAppendSpec.
Context {V T : Type} `{Storable V T} `{monoid T} `{MoveCtor T}.
Import monoid_unique_ptr.

Lemma unique_append_spec (ka kb : pass) (s : state V) (a b : ref)
    (pa pb : ptr) (oa ob : Opt T) :
  vars s !! a = Some pa -> vars s !! b = Some pb ->
  value_of s pa = Some oa -> value_of s pb = Some ob ->
  exists r s', unique_append.append ka kb a b s = Some (r, s') /\
               append_post ka kb s a b pa pb oa ob r s'.
Proof.
  intros Ha Hb Hoa Hob. unfold append_post.
  destruct (value_of_inv _ _ _ Hoa) as [[-> ->]|(la & x & -> & -> & Hx)];
    destruct (value_of_inv _ _ _ Hob) as [[-> ->]|(lb & y & -> & -> & Hy)];
    destruct ka, kb; simpl unique_append.append; simpl append_table.
  (* neither *)
  - eexists _, _. split; [by apply append_cc_neither|].
    split_and!; [done|frame_vars|frame_heap].
  - eexists _, _. split; [by eapply append_cr_move|].
    split_and!; [done|frame_vars|frame_heap].
  - eexists _, _. split; [by eapply append_rc_move|].
    split_and!; [done|frame_vars|frame_heap].
  - eexists _, _. split; [by eapply append_rr_move|].
    split_and!; [done|frame_vars|frame_heap].
  (* only [b] *)
  - eexists _, _. split; [by eapply append_cc_right|].
    split_and!; [apply value_of_new|frame_vars|frame_heap].
  - eexists _, _. split; [by eapply append_cr_move|].
    split_and!; [by rewrite value_of_moved|frame_vars|frame_heap].
  - eexists _, _. split; [by eapply append_rc_right|].
    split_and!; [apply value_of_new|frame_vars|frame_heap].
  - eexists _, _. split; [by eapply append_rr_move|].
    split_and!; [by rewrite value_of_moved|frame_vars|frame_heap].
  (* only [a] *)
  - eexists _, _. split; [by eapply append_cc_left|].
    split_and!; [apply value_of_new|frame_vars|frame_heap].
  - eexists _, _. split; [by eapply append_cr_left|].
    split_and!; [apply value_of_new|frame_vars|frame_heap].
  - eexists _, _. split; [by eapply append_rc_move|].
    split_and!; [by rewrite value_of_moved|frame_vars|frame_heap].
  - eexists _, _. split; [by eapply append_rr_left|].
    split_and!; [by rewrite value_of_moved|frame_vars|frame_heap].
  (* both *)
  - eexists _, _. split; [by eapply append_cc_both|].
    split_and!; [apply value_of_new|frame_vars|frame_heap].
  - eexists _, _. split; [by eapply append_cr_both|].
    split_and!; [apply value_of_written|frame_vars|frame_heap].
  - eexists _, _. split; [by eapply append_rc_both|].
    split_and!; [apply value_of_written|frame_vars|frame_heap].
  - eexists _, _. split; [by eapply append_rr_both|].
    split_and!; [apply value_of_written|frame_vars|frame_heap].
Qed.
End UniqueAppendSpec.

(** ** Monoid instance: the decision table *)

Section AppendTable.
Context {V T : Type} `{Storable V T} `{monoid T} `{MoveCtor T}.

Lemma unique_append_yields (ka kb : pass) (s : state V) (a b : ref)
    (pa pb : ptr) (oa ob : Opt T) :
  vars s !! a = Some pa -> vars s !! b = Some pb ->
  value_of s pa = Some oa -> value_of s pb = Some ob ->
  yields (unique_append.append ka kb a b) s (append_table oa ob).
Proof.
  intros Ha Hb Hoa Hob.
  destruct (unique_append_spec ka kb s a b pa pb oa ob Ha Hb Hoa Hob)
    as (r & s' & Hrun & Hval & _).
  by exists r, s'.
Qed.

(** C1: for both ownership kinds, [append] follows the decision table.  Let
    the pointers [a] and [b] stand for the optional values [oa] and [ob],
    and let [ra] and [rb] be pointer objects holding them.  Then the shared
    [append] of [a] and [b], and each of the four overloads of the exclusive
    [append] on [ra] and [rb], return a pointer standing for
    [append_table oa ob]: empty for two empty operands, the non-empty side's
    value when one operand is empty, and [monoid_append] of the two values
    when both hold one.  [id()] is the null pointer for both kinds. *)
Theorem append_decision_table (s : state V) (a b : ptr) (ra rb : ref)
    (oa ob : Opt T) :
  value_of s a = Some oa -> value_of s b = Some ob ->
  vars s !! ra = Some a -> vars s !! rb = Some b ->
  monoid_shared_ptr.id = None /\
  monoid_unique_ptr.id = None /\
  yields (monoid_shared_ptr.append a b) s (append_table oa ob) /\
  yields (monoid_unique_ptr.append_cc ra rb) s (append_table oa ob) /\
  yields (monoid_unique_ptr.append_rc ra rb) s (append_table oa ob) /\
  yields (monoid_unique_ptr.append_cr ra rb) s (append_table oa ob) /\
  yields (monoid_unique_ptr.append_rr ra rb) s (append_table oa ob).
Proof.
  intros Hoa Hob Hra Hrb. split_and!; try reflexivity.
  - by apply shared_append_yields.
  - by apply (unique_append_yields by_alias by_alias s ra rb a b).
  - by apply (unique_append_yields by_transfer by_alias s ra rb a b).
  - by apply (unique_append_yields by_alias by_transfer s ra rb a b).
  - by apply (unique_append_yields by_transfer by_transfer s ra rb a b).
Qed.
End AppendTable.

Lemma append_decision_table_witness :
  let s := example_state in
  let ra := 2%positive in
  let rb := 3%positive in
  monoid_shared_ptr.id = None /\
  monoid_unique_ptr.id = None /\
  yields (monoid_shared_ptr.append (Some 10%positive) (Some 11%positive))
         s (Holding 7%Z) /\
  yields (monoid_unique_ptr.append_cc ra rb) s (Holding 7%Z) /\
  yields (monoid_unique_ptr.append_rc ra rb) s (Holding 7%Z) /\
  yields (monoid_unique_ptr.append_cr ra rb) s (Holding 7%Z) /\
  yields (monoid_unique_ptr.append_rr ra rb) s (Holding 7%Z).
Proof.
  cbv zeta.
  change (Holding 7%Z) with (append_table (Holding 2%Z) (Holding 5%Z)).
  apply (append_decision_table (T := Z) example_state
           (Some 10%positive) (Some 11%positive) 2%positive 3%positive
           (Holding 2%Z) (Holding 5%Z));
    vm_compute; reflexivity.
Defined.

(** ** Shared monoid instance: aliasing and fresh results *)

Section SharedAliasing.
Context {V T : Type} `{Storable V T} `{monoid T}.
Import monoid_shared_ptr.

(** C10: for the shared kind, [append] with exactly one non-empty operand
    returns that operand's own pointer (the same address) and leaves the
    store as it was, so nothing is allocated; [append] of two empty
    operands returns the null pointer.  Both revisions of the header
    agree. *)
Theorem shared_append_returns_operand (s : state V) (l : loc) :
  append (Some l) None s = Some (Some l, s) /\
  append None (Some l) s = Some (Some l, s) /\
  append None None s = Some (None, s) /\
  append_nested (Some l) None s = Some (Some l, s) /\
  append_nested None (Some l) s = Some (Some l, s) /\
  append_nested None None s = Some (None, s).
Proof. by split_and!. Qed.

Lemma mutate_keeps_other (ws : list (ptr * T)) (la lb r : loc) (c : V) :
  Forall (fun w => w.1 = Some la \/ w.1 = Some lb) ws ->
  r ≠ la -> r ≠ lb ->
  forall s : state V,
    is_Some (heap s !! la) -> is_Some (heap s !! lb) ->
    heap s !! r = Some c ->
    exists s', mutate ws s = Some (tt, s') /\ heap s' !! r = Some c.
Proof.
  intros Hws Hra Hrb. induction Hws as [|[p x] ws Hp _ IH]; intros s Hla Hlb Hr.
  - by exists s.
  - unfold mutate. simpl foldr. fold (mutate ws). simpl in Hp.
    assert (exists l, p = Some l /\ is_Some (heap s !! l) /\ r ≠ l)
      as (l & -> & Hl & Hne) by (destruct Hp as [->| ->]; eauto).
    simpl assign. run_step.
    apply IH; simpl; try by apply live_insert.
    by rewrite lookup_insert_ne.
Qed.

(** C7: for the shared kind, [append] of two non-empty operands returns a
    pointer to a new object, at an address that was not live before and so
    differs from both operands', holding [monoid_append] of the two held
    values (their sum for the sum monoid); the operands still hold their
    values; and whatever is assigned afterwards through the two operands,
    in any order and number, the result keeps holding that value.  Both
    revisions of the header agree. *)
Theorem shared_append_fresh_independent (s : state V) (la lb : loc) (x y : T) :
  heap_load s la = Some x -> heap_load s lb = Some y ->
  exists (r : loc) (s' : state V),
    append (Some la) (Some lb) s = Some (Some r, s') /\
    append_nested (Some la) (Some lb) s = Some (Some r, s') /\
    heap s !! r = None /\ r ≠ la /\ r ≠ lb /\
    value_of s' (Some r) = Some (Holding (monoid_append x y)) /\
    value_of s' (Some la) = Some (Holding x) /\
    value_of s' (Some lb) = Some (Holding y) /\
    forall ws : list (ptr * T),
      Forall (fun w => w.1 = Some la \/ w.1 = Some lb) ws ->
      exists s'', mutate ws s' = Some (tt, s'') /\
                  value_of s'' (Some r) = Some (Holding (monoid_append x y)).
Proof.
  intros Hx Hy.
  assert (fresh (dom (heap s)) ≠ la) as Hla
    by (eapply fresh_ne_live, heap_load_live; eassumption).
  assert (fresh (dom (heap s)) ≠ lb) as Hlb
    by (eapply fresh_ne_live, heap_load_live; eassumption).
  eexists _, _. split; [by apply shared_append_both|].
  split; [rewrite append_nested_eq; by apply shared_append_both|].
  split; [apply fresh_not_live|]. do 2 (split; [done|]).
  split; [apply value_of_new|].
  split; [apply value_of_holding; by rewrite heap_load_insert_ne|].
  split; [apply value_of_holding; by rewrite heap_load_insert_ne|].
  intros ws Hws.
  destruct (mutate_keeps_other ws la lb (fresh (dom (heap s)))
              (to_cell (monoid_append x y)) Hws Hla Hlb
              (State (vars s)
                 (<[fresh (dom (heap s)) := to_cell (monoid_append x y)]>
                    (heap s))))
    as (s'' & Hrun & Hr); try live.
  { simpl. apply lookup_insert_eq. }
  exists s''. split; [done|].
  apply value_of_holding. unfold heap_load. rewrite Hr. simpl. apply of_to_cell.
Qed.
End SharedAliasing.

Lemma shared_append_fresh_independent_witness :
  exists (r : loc) (s' : state cell),
    monoid_shared_ptr.append (Some 10%positive) (Some 11%positive)
      example_state = Some (Some r, s') /\
    monoid_shared_ptr.append_nested (Some 10%positive) (Some 11%positive)
      example_state = Some (Some r, s') /\
    heap example_state !! r = None /\ r ≠ 10%positive /\ r ≠ 11%positive /\
    value_of s' (Some r) = Some (Holding 7%Z) /\
    value_of s' (Some 10%positive) = Some (Holding 2%Z) /\
    value_of s' (Some 11%positive) = Some (Holding 5%Z) /\
    forall ws : list (ptr * Z),
      Forall (fun w => w.1 = Some 10%positive \/ w.1 = Some 11%positive) ws ->
      exists s'', mutate ws s' = Some (tt, s'') /\
                  value_of s'' (Some r) = Some (Holding 7%Z).
Proof.
  change 7%Z with (monoid_append 2%Z 5%Z).
  apply (shared_append_fresh_independent (T := Z) example_state
           10%positive 11%positive 2%Z 5%Z);
    vm_compute; reflexivity.
Defined.

(** ** Monoid laws *)

Section Laws.
Context {V T : Type} `{Storable V T} `{monoid T} `{MoveCtor T}.

Lemma yields_bind {A} (m : M V A) (k : A -> M V ptr) (s s1 : state V)
    (x : A) (o : Opt T) :
  m s = Some (x, s1) -> yields (k x) s1 o -> yields (m ≫= k) s o.
Proof.
  intros Hm (r & s' & Hk & Hv). exists r, s'. split; [|done].
  by rewrite run_bind, Hm.
Qed.

Lemma run_new_ref (s : state V) (p : ptr) :
  new_ref p s =
    Some (fresh (dom (vars s)),
          State (<[fresh (dom (vars s)) := p]> (vars s)) (heap s)).
Proof. reflexivity. Qed.

Lemma fresh_ne_ref (s : state V) (c : ref) :
  is_Some (vars s !! c) -> fresh (dom (vars s)) ≠ c.
Proof.
  intros Hc <-.
  assert (vars s !! fresh (dom (vars s)) = None) as Hf
    by apply not_elem_of_dom, is_fresh.
  rewrite Hf in Hc. by destruct Hc.
Qed.

Lemma value_of_frame (s s' : state V) (p : ptr) (o : Opt T) :
  value_of s p = Some o ->
  (forall l, is_Some (heap s !! l) -> p = Some l ->
             heap s' !! l = heap s !! l) ->
  value_of s' p = Some o.
Proof.
  intros Hv Hframe. rewrite <- Hv. apply value_of_agree.
  intros l ->. apply Hframe; [|done]. by eapply value_of_live.
Qed.

Lemma append_table_id_l (o : Opt T) : append_table Absent o = o.
Proof. by destruct o. Qed.

Lemma append_table_id_r (o : Opt T) : append_table o Absent = o.
Proof. by destruct o. Qed.

Lemma append_table_assoc (oa ob oc : Opt T) :
  (forall x y z : T,
     monoid_append (monoid_append x y) z = monoid_append x (monoid_append y z)) ->
  append_table (append_table oa ob) oc = append_table oa (append_table ob oc).
Proof.
  intros Hassoc. destruct oa, ob, oc; simpl; try reflexivity.
  by rewrite Hassoc.
Qed.

(** The shared [append] allocates at most; every live object stays. *)
Lemma shared_append_spec (s : state V) (a b : ptr) (oa ob : Opt T) :
  value_of s a = Some oa -> value_of s b = Some ob ->
  exists r s', monoid_shared_ptr.append a b s = Some (r, s') /\
               value_of s' r = Some (append_table oa ob) /\
               forall l, is_Some (heap s !! l) -> heap s' !! l = heap s !! l.
Proof.
  intros Ha Hb.
  destruct (value_of_inv _ _ _ Ha) as [[-> ->]|(la & x & -> & -> & Hx)].
  - exists b, s. split; [apply shared_append_right|]. split; [|done].
    rewrite Hb. by destruct ob.
  - destruct (value_of_inv _ _ _ Hb) as [[-> ->]|(lb & y & -> & -> & Hy)].
    + exists (Some la), s. split; [apply shared_append_left|done].
    + eexists _, _. split; [by apply shared_append_both|].
      split; [apply value_of_new|].
      intros l Hl. simpl. rewrite lookup_insert_ne; [done|].
      by apply fresh_ne_live.
Qed.

Lemma shared_append_assoc_left (s : state V) (a b c : ptr) (oa ob oc : Opt T) :
  value_of s a = Some oa -> value_of s b = Some ob -> value_of s c = Some oc ->
  yields (ab ← monoid_shared_ptr.append a b; monoid_shared_ptr.append ab c)
         s (append_table (append_table oa ob) oc).
Proof.
  intros Ha Hb Hc.
  destruct (shared_append_spec s a b oa ob Ha Hb) as (r & s1 & Hrun & Hr & Hfr).
  eapply yields_bind; [exact Hrun|].
  apply shared_append_yields; [done|].
  eapply value_of_frame; [exact Hc|]. intros l Hl _. by apply Hfr.
Qed.

Lemma shared_append_assoc_right (s : state V) (a b c : ptr) (oa ob oc : Opt T) :
  value_of s a = Some oa -> value_of s b = Some ob -> value_of s c = Some oc ->
  yields (bc ← monoid_shared_ptr.append b c; monoid_shared_ptr.append a bc)
         s (append_table oa (append_table ob oc)).
Proof.
  intros Ha Hb Hc.
  destruct (shared_append_spec s b c ob oc Hb Hc) as (r & s1 & Hrun & Hr & Hfr).
  eapply yields_bind; [exact Hrun|].
  apply shared_append_yields; [|done].
  eapply value_of_frame; [exact Ha|]. intros l Hl _. by apply Hfr.
Qed.

(** The value of an operand that an exclusive [append] of two other
    operands leaves alone. *)
Lemma unique_append_keeps (ka kb kc : pass) (s s' : state V) (a b c : ref)
    (pa pb pc r : ptr) (oa ob oc : Opt T) :
  vars s !! c = Some pc -> value_of s pc = Some oc ->
  separate ka kc a c pa pc -> separate kb kc b c pb pc ->
  append_post ka kb s a b pa pb oa ob r s' ->
  vars s' !! c = Some pc /\ value_of s' pc = Some oc.
Proof.
  intros Hc Hoc Hac Hbc (_ & Hvars & Hheap). split.
  - rewrite Hvars; [done| |].
    + destruct Hac as [[-> _]|[Hne _]]; [by right|left; congruence].
    + destruct Hbc as [[-> _]|[Hne _]]; [by right|left; congruence].
  - eapply value_of_frame; [exact Hoc|]. intros l Hl ->.
    apply Hheap; [done| |].
    + destruct Hac as [[-> _]|[_ Hex]]; [by right|left].
      intros Heq. symmetry in Heq. specialize (Hex Heq). by subst.
    + destruct Hbc as [[-> _]|[_ Hex]]; [by right|left].
      intros Heq. symmetry in Heq. specialize (Hex Heq). by subst.
Qed.
End Laws.

Section UniqueLaws.
Context {V T : Type} `{Storable V T} `{monoid T} `{MoveCtor T}.

Lemma exclusive_sym (p q : ptr) : exclusive p q -> exclusive q p.
Proof. intros Hpq Heq. symmetry in Heq. specialize (Hpq Heq). by subst. Qed.

Lemma separate_sym (kx ky : pass) (rx ry : ref) (px py : ptr) :
  separate kx ky rx ry px py -> separate ky kx ry rx py px.
Proof.
  intros [[-> ->]|[Hne Hex]]; [by left|right].
  split; [done|by apply exclusive_sym].
Qed.

(** Binding a prvalue to a reference parameter, then appending. *)
Lemma yields_new_ref (p : ptr) (k : ref -> M V ptr) (s : state V)
    (o : Opt T) :
  yields (k (fresh (dom (vars s))))
         (State (<[fresh (dom (vars s)) := p]> (vars s)) (heap s)) o ->
  yields (t ← new_ref p; k t) s o.
Proof. intros Hk. eapply yields_bind; [apply run_new_ref|exact Hk]. Qed.

Lemma unique_append_assoc_left (ka kb kc : pass) (s : state V) (a b c : ref)
    (pa pb pc : ptr) (oa ob oc : Opt T) :
  vars s !! a = Some pa -> vars s !! b = Some pb -> vars s !! c = Some pc ->
  value_of s pa = Some oa -> value_of s pb = Some ob ->
  value_of s pc = Some oc ->
  separate ka kc a c pa pc -> separate kb kc b c pb pc ->
  yields (unique_append.append_left ka kb kc a b c) s
         (append_table (append_table oa ob) oc).
Proof.
  intros Ha Hb Hc Hoa Hob Hoc Hac Hbc. unfold unique_append.append_left.
  destruct (unique_append_spec ka kb s a b pa pb oa ob Ha Hb Hoa Hob)
    as (r & s1 & Hrun & Hpost).
  destruct (unique_append_keeps ka kb kc s s1 a b c pa pb pc r oa ob oc
              Hc Hoc Hac Hbc Hpost) as [Hc1 Hoc1].
  destruct Hpost as (Hr & _).
  eapply yields_bind; [exact Hrun|]. apply yields_new_ref.
  eapply (unique_append_yields by_transfer kc _ _ c r pc); simpl.
  - apply lookup_insert_eq.
  - rewrite lookup_insert_ne; [done|]. apply fresh_ne_ref. by rewrite Hc1.
  - done.
  - done.
Qed.

Lemma unique_append_assoc_right (ka kb kc : pass) (s : state V) (a b c : ref)
    (pa pb pc : ptr) (oa ob oc : Opt T) :
  vars s !! a = Some pa -> vars s !! b = Some pb -> vars s !! c = Some pc ->
  value_of s pa = Some oa -> value_of s pb = Some ob ->
  value_of s pc = Some oc ->
  separate ka kb a b pa pb -> separate ka kc a c pa pc ->
  yields (unique_append.append_right ka kb kc a b c) s
         (append_table oa (append_table ob oc)).
Proof.
  intros Ha Hb Hc Hoa Hob Hoc Hab Hac. unfold unique_append.append_right.
  destruct (unique_append_spec kb kc s b c pb pc ob oc Hb Hc Hob Hoc)
    as (r & s1 & Hrun & Hpost).
  destruct (unique_append_keeps kb kc ka s s1 b c a pb pc pa r ob oc oa
              Ha Hoa (separate_sym _ _ _ _ _ _ Hab)
              (separate_sym _ _ _ _ _ _ Hac) Hpost) as [Ha1 Hoa1].
  destruct Hpost as (Hr & _).
  eapply yields_bind; [exact Hrun|]. apply yields_new_ref.
  eapply (unique_append_yields ka by_transfer _ a _ pa r); simpl.
  - rewrite lookup_insert_ne; [done|]. apply fresh_ne_ref. by rewrite Ha1.
  - apply lookup_insert_eq.
  - done.
  - done.
Qed.

Lemma unique_append_id_l (ke k : pass) (s : state V) (a : ref) (pa : ptr)
    (oa : Opt T) :
  vars s !! a = Some pa -> value_of s pa = Some oa ->
  yields (e ← new_ref monoid_unique_ptr.id;
          unique_append.append ke k e a) s oa.
Proof.
  intros Ha Hoa. apply yields_new_ref.
  rewrite <- (append_table_id_l oa) at 1.
  eapply (unique_append_yields ke k _ _ a None pa); simpl.
  - apply lookup_insert_eq.
  - rewrite lookup_insert_ne; [done|]. apply fresh_ne_ref. by rewrite Ha.
  - done.
  - done.
Qed.

Lemma unique_append_id_r (k ke : pass) (s : state V) (a : ref) (pa : ptr)
    (oa : Opt T) :
  vars s !! a = Some pa -> value_of s pa = Some oa ->
  yields (e ← new_ref monoid_unique_ptr.id;
          unique_append.append k ke a e) s oa.
Proof.
  intros Ha Hoa. apply yields_new_ref.
  rewrite <- (append_table_id_r oa) at 1.
  eapply (unique_append_yields k ke _ a _ pa None); simpl.
  - rewrite lookup_insert_ne; [done|]. apply fresh_ne_ref. by rewrite Ha.
  - apply lookup_insert_eq.
  - done.
  - done.
Qed.

(** C2: the monoid laws, for both ownership kinds and every combination of
    empty and non-empty operands, read on the optional values the pointers
    stand for.  Let [a], [b], [c] stand for [oa], [ob], [oc] and be held by
    the pointer objects [ra], [rb], [rc], passed as [ka], [kb], [kc] say
    (operands of which one is passed by transfer being distinct objects
    that own distinct storage).  Then [append(id(), a)] and
    [append(a, id())], with [id()] bound to a pointer object of its own
    and passed either way, return a pointer standing for [oa], and, when the
    pointee's [monoid_append] is associative, [append(append(a, b), c)] and
    [append(a, append(b, c))] return pointers standing for the same
    optional value. *)
Theorem monoid_laws (s : state V) (a b c : ptr) (ra rb rc : ref)
    (oa ob oc : Opt T) (ka kb kc : pass) :
  (forall x y z : T,
     monoid_append (monoid_append x y) z = monoid_append x (monoid_append y z)) ->
  value_of s a = Some oa -> value_of s b = Some ob -> value_of s c = Some oc ->
  vars s !! ra = Some a -> vars s !! rb = Some b -> vars s !! rc = Some c ->
  separate ka kb ra rb a b -> separate kb kc rb rc b c ->
  separate ka kc ra rc a c ->
  yields (monoid_shared_ptr.append monoid_shared_ptr.id a) s oa /\
  yields (monoid_shared_ptr.append a monoid_shared_ptr.id) s oa /\
  (exists o : Opt T,
     yields (ab ← monoid_shared_ptr.append a b;
             monoid_shared_ptr.append ab c) s o /\
     yields (bc ← monoid_shared_ptr.append b c;
             monoid_shared_ptr.append a bc) s o) /\
  (forall ke,
     yields (e ← new_ref monoid_unique_ptr.id;
             unique_append.append ke ka e ra) s oa) /\
  (forall ke,
     yields (e ← new_ref monoid_unique_ptr.id;
             unique_append.append ka ke ra e) s oa) /\
  (exists o : Opt T,
     yields (unique_append.append_left ka kb kc ra rb rc) s o /\
     yields (unique_append.append_right ka kb kc ra rb rc) s o).
Proof.
  intros Hassoc Hoa Hob Hoc Hra Hrb Hrc Hab Hbc Hac. split_and!.
  - pose proof (shared_append_yields s None a Absent oa eq_refl Hoa) as Hy.
    by rewrite append_table_id_l in Hy.
  - pose proof (shared_append_yields s a None oa Absent Hoa eq_refl) as Hy.
    by rewrite append_table_id_r in Hy.
  - exists (append_table (append_table oa ob) oc). split.
    + by apply shared_append_assoc_left.
    + rewrite append_table_assoc by done. by apply shared_append_assoc_right.
  - intros ke. by eapply unique_append_id_l.
  - intros ke. by eapply unique_append_id_r.
  - exists (append_table (append_table oa ob) oc). split.
    + by eapply unique_append_assoc_left.
    + rewrite append_table_assoc by done.
      by eapply unique_append_assoc_right.
Qed.
End UniqueLaws.

Lemma monoid_laws_witness :
  let s := example_state in
  let a : ptr := Some 10%positive in
  let b : ptr := Some 11%positive in
  let c : ptr := None in
  yields (monoid_shared_ptr.append monoid_shared_ptr.id a) s (Holding 2%Z) /\
  yields (monoid_shared_ptr.append a monoid_shared_ptr.id) s (Holding 2%Z) /\
  (exists o : Opt Z,
     yields (ab ← monoid_shared_ptr.append a b;
             monoid_shared_ptr.append ab c) s o /\
     yields (bc ← monoid_shared_ptr.append b c;
             monoid_shared_ptr.append a bc) s o) /\
  (forall ke,
     yields (e ← new_ref monoid_unique_ptr.id;
             unique_append.append ke by_transfer e 2%positive)
            s (Holding 2%Z)) /\
  (forall ke,
     yields (e ← new_ref monoid_unique_ptr.id;
             unique_append.append by_transfer ke 2%positive e)
            s (Holding 2%Z)) /\
  (exists o : Opt Z,
     yields (unique_append.append_left by_transfer by_alias by_transfer
               2%positive 3%positive 1%positive) s o /\
     yields (unique_append.append_right by_transfer by_alias by_transfer
               2%positive 3%positive 1%positive) s o).
Proof.
  cbv zeta.
  apply (monoid_laws (T := Z) example_state
           (Some 10%positive) (Some 11%positive) None
           2%positive 3%positive 1%positive
           (Holding 2%Z) (Holding 5%Z) Absent
           by_transfer by_alias by_transfer).
  - intros x y z. simpl. lia.
  - vm_compute; reflexivity.
  - vm_compute; reflexivity.
  - vm_compute; reflexivity.
  - vm_compute; reflexivity.
  - vm_compute; reflexivity.
  - vm_compute; reflexivity.
  - right. split; [discriminate|]. intros [=].
  - right. split; [discriminate|]. intros [=].
  - right. split; [discriminate|]. intros [=].
Defined.

(** ** Monad instances, case by case *)

Section Monads.
Context {V T U : Type} `{Storable V T} `{Storable V U} `{MoveCtor T}.

Lemma shared_map_null (f : T -> U) (s : state V) :
  monad_shared_ptr.map f None s = Some (None, s).
Proof. reflexivity. Qed.

Lemma shared_map_holding (f : T -> U) (s : state V) (l : loc) (x : T) :
  heap_load s l = Some x ->
  monad_shared_ptr.map f (Some l) s =
    Some (Some (fresh (dom (heap s))),
          State (vars s) (<[fresh (dom (heap s)) := to_cell (f x)]> (heap s))).
Proof.
  intros Hx. unfold monad_shared_ptr.map. simpl. do 2 run_step. reflexivity.
Qed.

Lemma shared_bind_null (f : T -> M V ptr) (s : state V) :
  monad_shared_ptr.bind None f s = Some (None, s).
Proof. reflexivity. Qed.

Lemma shared_bind_holding (f : T -> M V ptr) (s : state V) (l : loc) (x : T) :
  heap_load s l = Some x ->
  monad_shared_ptr.bind (Some l) f s = f x s.
Proof.
  intros Hx. unfold monad_shared_ptr.bind. simpl. run_step. reflexivity.
Qed.

Lemma run_move_pointee (s : state V) (p : ref) (l : loc) (x : T) :
  vars s !! p = Some (Some l) -> heap_load s l = Some x ->
  monad_unique_ptr.move_pointee p s =
    Some (x, State (vars s) (<[l := to_cell (moved_from x)]> (heap s))).
Proof.
  intros Hp Hx. unfold monad_unique_ptr.move_pointee.
  run_step. simpl. do 2 run_step. reflexivity.
Qed.

Lemma unique_map_null (f : T -> U) (s : state V) (p : ref) :
  vars s !! p = Some None ->
  monad_unique_ptr.map f p s = Some (None, s).
Proof. intros Hp. unfold monad_unique_ptr.map. by run_step. Qed.

Lemma unique_map_holding (f : T -> U) (s : state V) (p : ref) (l : loc)
    (x : T) :
  vars s !! p = Some (Some l) -> heap_load s l = Some x ->
  monad_unique_ptr.map f p s =
    Some (Some (fresh (dom (<[l := to_cell (moved_from x)]> (heap s)))),
          State (vars s)
                (<[fresh (dom (<[l := to_cell (moved_from x)]> (heap s)))
                   := to_cell (f x)]>
                   (<[l := to_cell (moved_from x)]> (heap s)))).
Proof.
  intros Hp Hx. unfold monad_unique_ptr.map. run_step. simpl.
  rewrite run_bind, (run_move_pointee s p l x) by done. cbv beta iota.
  run_step. reflexivity.
Qed.

Lemma unique_bind_null (f : T -> M V ptr) (s : state V) (a : ref) :
  vars s !! a = Some None ->
  monad_unique_ptr.bind a f s = Some (None, s).
Proof. intros Ha. unfold monad_unique_ptr.bind. by run_step. Qed.

Lemma unique_bind_holding (f : T -> M V ptr) (s : state V) (a : ref)
    (l : loc) (x : T) :
  vars s !! a = Some (Some l) -> heap_load s l = Some x ->
  monad_unique_ptr.bind a f s =
    f x (State (vars s) (<[l := to_cell (moved_from x)]> (heap s))).
Proof.
  intros Ha Hx. unfold monad_unique_ptr.bind. run_step. simpl.
  by rewrite run_bind, (run_move_pointee s a l x).
Qed.
End Monads.

Section InPlaceMap.
Context {V T : Type} `{Storable V T} `{MoveCtor T}.

Lemma unique_map_rv_null (g : T -> T) (s : state V) (p : ref) :
  vars s !! p = Some None ->
  monad_unique_ptr.map_rv g p s =
    Some (None, State (<[p := None]> (vars s)) (heap s)).
Proof.
  intros Hp. unfold monad_unique_ptr.map_rv. run_step. simpl.
  run_step. by apply run_move_ptr.
Qed.

Lemma unique_map_rv_holding (g : T -> T) (s : state V) (p : ref) (l : loc)
    (x : T) :
  vars s !! p = Some (Some l) -> heap_load s l = Some x ->
  monad_unique_ptr.map_rv g p s =
    Some (Some l,
          State (<[p := None]> (vars s))
                (<[l := to_cell (g x)]>
                   (<[l := to_cell (moved_from x)]> (heap s)))).
Proof.
  intros Hp Hx. unfold monad_unique_ptr.map_rv. run_step. simpl.
  rewrite !run_bind, (run_move_pointee s p l x) by done. cbv beta iota.
  erewrite run_store by run_side.
  by erewrite run_move_ptr by run_side.
Qed.
End InPlaceMap.

(** ** Monad instances: [bind] and [map] *)

Section BindMap.
Context {V T U : Type} `{Storable V T} `{Storable V U} `{MoveCtor T}.

(** C3: for both ownership kinds, [bind] of an empty pointer is the empty
    pointer of the target type, whatever [f] is, and [bind] of a pointer
    holding [x] is the computation [f x] itself: its result is returned as
    it is, empty or not, with nothing wrapped around it.  For the exclusive
    kind [f x] runs after the held value was moved out, so in a store where
    the pointee is left moved from. *)
Theorem bind_passes_through (s : state V) (p : ptr) (rp : ref) (o : Opt T)
    (f : T -> M V ptr) :
  value_of s p = Some o -> vars s !! rp = Some p ->
  match o with
  | Absent =>
      monad_shared_ptr.bind p f s = Some (None, s) /\
      monad_unique_ptr.bind rp f s = Some (None, s)
  | Holding x =>
      monad_shared_ptr.bind p f s = f x s /\
      exists l, p = Some l /\
        monad_unique_ptr.bind rp f s =
          f x (State (vars s) (<[l := to_cell (moved_from x)]> (heap s)))
  end.
Proof.
  intros Ho Hrp.
  destruct (value_of_inv _ _ _ Ho) as [[-> ->]|(l & x & -> & -> & Hx)].
  - split; [apply shared_bind_null|by apply unique_bind_null].
  - split; [by apply shared_bind_holding|].
    exists l. split; [done|]. by apply unique_bind_holding.
Qed.

Lemma dom_insert_live (h : gmap loc V) (l : loc) (c : V) :
  is_Some (h !! l) -> dom (<[l := c]> h) = dom h.
Proof.
  intros Hl. rewrite dom_insert_L.
  apply subseteq_union_1_L, singleton_subseteq_l, elem_of_dom, Hl.
Qed.

Lemma shared_map_yields (f : T -> U) (s : state V) (p : ptr) (o : Opt T) :
  value_of s p = Some o ->
  yields (monad_shared_ptr.map f p) s (map_table f o).
Proof.
  intros Ho.
  destruct (value_of_inv _ _ _ Ho) as [[-> ->]|(l & x & -> & -> & Hx)].
  - by exists None, s.
  - eexists _, _. split; [by apply shared_map_holding|]. apply value_of_new.
Qed.

Lemma unique_map_yields (f : T -> U) (s : state V) (rp : ref) (p : ptr)
    (o : Opt T) :
  vars s !! rp = Some p -> value_of s p = Some o ->
  yields (monad_unique_ptr.map f rp) s (map_table f o).
Proof.
  intros Hrp Ho.
  destruct (value_of_inv _ _ _ Ho) as [[-> ->]|(l & x & -> & -> & Hx)].
  - exists None, s. split; [by apply unique_map_null|done].
  - eexists _, _. split; [by apply unique_map_holding|].
    apply value_of_written.
Qed.
End BindMap.

Lemma bind_passes_through_witness :
  let f : Z -> M cell ptr := fun x => monad_shared_ptr.pure (x + 1)%Z in
  monad_shared_ptr.bind (Some 10%positive) f example_state
    = f 2%Z example_state /\
  exists l, Some 10%positive = Some l /\
    monad_unique_ptr.bind 2%positive f example_state =
      f 2%Z (State (vars example_state)
               (<[l := to_cell (moved_from 2%Z)]> (heap example_state))).
Proof.
  apply (bind_passes_through (T := Z) example_state (Some 10%positive)
           2%positive (Holding 2%Z)
           (fun x => monad_shared_ptr.pure (x + 1)%Z));
    vm_compute; reflexivity.
Defined.

Section MapTable.
Context {V T U : Type} `{Storable V T} `{Storable V U} `{MoveCtor T}.

(** C5: for both ownership kinds, [map f] of an empty pointer is empty and
    [map f] of a pointer holding [x] holds [f x].  For the exclusive kind,
    when the function [g] maps the pointee type to itself and the argument
    is given by transfer, the returned pointer is the argument's own
    address: no object is allocated (the heap has the same addresses as
    before), that object now holds [g x], and no other object changed. *)
Theorem map_table_both_kinds (s : state V) (p : ptr) (rp : ref) (o : Opt T)
    (f : T -> U) (g : T -> T) :
  value_of s p = Some o -> vars s !! rp = Some p ->
  yields (monad_shared_ptr.map f p) s (map_table f o) /\
  yields (monad_unique_ptr.map f rp) s (map_table f o) /\
  exists s' : state V,
    monad_unique_ptr.map_rv g rp s = Some (p, s') /\
    value_of s' p = Some (map_table g o) /\
    dom (heap s') = dom (heap s) /\
    forall l, Some l ≠ p -> heap s' !! l = heap s !! l.
Proof.
  intros Ho Hrp.
  split; [by apply shared_map_yields|].
  split; [by eapply unique_map_yields|].
  destruct (value_of_inv _ _ _ Ho) as [[-> ->]|(l & x & -> & -> & Hx)].
  - eexists. split; [by apply unique_map_rv_null|]. by split_and!.
  - eexists. split; [by apply unique_map_rv_holding|]. split_and!.
    + apply value_of_written.
    + simpl. rewrite !dom_insert_live; [done|live..].
    + intros l' Hne. simpl. rewrite !lookup_insert_ne by congruence. done.
Qed.
End MapTable.

Lemma map_table_both_kinds_witness :
  let s := example_state in
  let p : ptr := Some 10%positive in
  yields (monad_shared_ptr.map Z.opp p) s (Holding (-2)%Z) /\
  yields (monad_unique_ptr.map Z.opp 2%positive) s (Holding (-2)%Z) /\
  exists s' : state cell,
    monad_unique_ptr.map_rv Z.succ 2%positive s = Some (p, s') /\
    value_of s' p = Some (Holding 3%Z) /\
    dom (heap s') = dom (heap s) /\
    forall l, Some l ≠ p -> heap s' !! l = heap s !! l.
Proof.
  cbv zeta.
  change (Holding (-2)%Z) with (map_table Z.opp (Holding 2%Z)).
  change (Holding 3%Z) with (map_table Z.succ (Holding 2%Z)).
  apply (map_table_both_kinds (T := Z) (U := Z) example_state
           (Some 10%positive) 2%positive (Holding 2%Z) Z.opp Z.succ);
    vm_compute; reflexivity.
Defined.

(** ** MonoidA instances *)

Section OrDo.
Context {V T : Type} `{Storable V T}.

Lemma run_dup_unique_null (s : state V) (p : ref) :
  vars s !! p = Some None -> _dtl.dup_unique (T := T) p s = Some (None, s).
Proof. intros Hp. unfold _dtl.dup_unique. by run_step. Qed.

Lemma run_dup_unique_holding (s : state V) (p : ref) (l : loc) (x : T) :
  vars s !! p = Some (Some l) -> heap_load s l = Some x ->
  _dtl.dup_unique (T := T) p s =
    Some (Some (fresh (dom (heap s))),
          State (vars s) (<[fresh (dom (heap s)) := to_cell x]> (heap s))).
Proof.
  intros Hp Hx. unfold _dtl.dup_unique. run_step. simpl.
  do 2 run_step. reflexivity.
Qed.

Lemma orElse_table_value (s : state V) (a b : ptr) (oa ob : Opt T) :
  value_of s a = Some oa -> value_of s b = Some ob ->
  value_of s (if nonnull a then a else b) = Some (orElse_table oa ob).
Proof.
  intros Ha Hb.
  destruct (value_of_inv _ _ _ Ha) as [[-> ->]|(la & x & -> & -> & Hx)];
    simpl nonnull; cbv iota; simpl orElse_table; done.
Qed.

(** C6: [fail()] is the null pointer for both kinds, and [orDo(a, b)]
    stands for [a]'s value if [a] is non-empty and for [b]'s otherwise.
    For the shared kind the result is the chosen pointer itself and the
    store is as before (nothing is allocated).  For the exclusive kind the
    result, when not null, points to an object that was not live before,
    which holds a copy of the chosen side's value; it is null exactly when
    both sides are; the operands keep what they own and every live object
    stays as it was. *)
Theorem orDo_first_non_empty (s : state V) (a b : ptr) (ra rb : ref)
    (oa ob : Opt T) :
  value_of s a = Some oa -> value_of s b = Some ob ->
  vars s !! ra = Some a -> vars s !! rb = Some b ->
  monoidA_shared_ptr.fail = None /\
  monoidA_unique_ptr.fail = None /\
  monoidA_shared_ptr.orDo a b s = Some (if nonnull a then a else b, s) /\
  value_of s (if nonnull a then a else b) = Some (orElse_table oa ob) /\
  exists (r : ptr) (s' : state V),
    monoidA_unique_ptr.orDo ra rb s = Some (r, s') /\
    value_of s' r = Some (orElse_table oa ob) /\
    (forall l, r = Some l -> heap s !! l = None) /\
    (r = None <-> a = None /\ b = None) /\
    vars s' = vars s /\
    (forall l, is_Some (heap s !! l) -> heap s' !! l = heap s !! l).
Proof.
  intros Hoa Hob Hra Hrb. split_and!; try reflexivity.
  - by destruct a.
  - by apply orElse_table_value.
  - unfold monoidA_unique_ptr.orDo.
    destruct (value_of_inv _ _ _ Hoa) as [[-> ->]|(la & x & -> & -> & Hx)].
    + destruct (value_of_inv _ _ _ Hob) as [[-> ->]|(lb & y & -> & -> & Hy)].
      * exists None, s. split; [|by split_and!].
        run_step. simpl. by apply run_dup_unique_null.
      * eexists _, _. split.
        { run_step. simpl. by eapply run_dup_unique_holding. }
        split_and!.
        -- apply value_of_new.
        -- intros l [= <-]. apply fresh_not_live.
        -- split; [discriminate|]. by intros [_ [=]].
        -- done.
        -- intros l Hl. simpl. rewrite lookup_insert_ne; [done|].
           by apply fresh_ne_live.
    + eexists _, _. split.
      { run_step. simpl. by eapply run_dup_unique_holding. }
      split_and!.
      * apply value_of_new.
      * intros l [= <-]. apply fresh_not_live.
      * split; [discriminate|]. by intros [[=] _].
      * done.
      * intros l Hl. simpl. rewrite lookup_insert_ne; [done|].
        by apply fresh_ne_live.
Qed.
End OrDo.

Lemma orDo_first_non_empty_witness :
  let s := example_state in
  let a : ptr := None in
  let b : ptr := Some 11%positive in
  monoidA_shared_ptr.fail = None /\
  monoidA_unique_ptr.fail = None /\
  monoidA_shared_ptr.orDo a b s = Some (if nonnull a then a else b, s) /\
  value_of s (if nonnull a then a else b) = Some (Holding 5%Z) /\
  exists (r : ptr) (s' : state cell),
    monoidA_unique_ptr.orDo (T := Z) 1%positive 3%positive s = Some (r, s') /\
    value_of s' r = Some (Holding 5%Z) /\
    (forall l, r = Some l -> heap s !! l = None) /\
    (r = None <-> a = None /\ b = None) /\
    vars s' = vars s /\
    (forall l, is_Some (heap s !! l) -> heap s' !! l = heap s !! l).
Proof.
  cbv zeta.
  change (Holding 5%Z) with (orElse_table Absent (Holding 5%Z)).
  apply (orDo_first_non_empty (T := Z) example_state None (Some 11%positive)
           1%positive 3%positive Absent (Holding 5%Z));
    vm_compute; reflexivity.
Defined.

(** ** Foldable instances *)

Section Folds.
Context {V T U : Type} `{Storable V T}.

Lemma fold_runs (s : state V) (p : ptr) (rp : ref)
    (o : Opt T) (fn : U -> T -> U) (z : U) :
  value_of s p = Some o -> vars s !! rp = Some p ->
  foldable_shared_ptr.foldl fn z p s = Some (fold_table fn z o, s) /\
  foldable_shared_ptr.foldr fn z p s = Some (fold_table fn z o, s) /\
  foldable_unique_ptr.foldl fn z rp s = Some (fold_table fn z o, s) /\
  foldable_unique_ptr.foldr fn z rp s = Some (fold_table fn z o, s).
Proof.
  intros Ho Hrp.
  destruct (value_of_inv _ _ _ Ho) as [[-> ->]|(l & x & -> & -> & Hx)].
  - split_and!; try reflexivity.
    + unfold foldable_unique_ptr.foldl. by run_step.
    + unfold foldable_unique_ptr.foldr. by run_step.
  - split_and!.
    + unfold foldable_shared_ptr.foldl. simpl. run_step. reflexivity.
    + unfold foldable_shared_ptr.foldr. simpl. run_step. reflexivity.
    + unfold foldable_unique_ptr.foldl. run_step. simpl. run_step.
      reflexivity.
    + unfold foldable_unique_ptr.foldr. run_step. simpl. run_step.
      reflexivity.
Qed.

(** C9: for both ownership kinds, [foldl] and [foldr] of an empty pointer
    return the seed, and of a pointer holding [x] they both return the one
    application [fn seed x]; the store is left as it was. *)
Theorem fold_single_application (s : state V) (p : ptr) (rp : ref)
    (o : Opt T) (fn : U -> T -> U) (z : U) :
  value_of s p = Some o -> vars s !! rp = Some p ->
  foldable_shared_ptr.foldl fn z p s = Some (fold_table fn z o, s) /\
  foldable_shared_ptr.foldr fn z p s = Some (fold_table fn z o, s) /\
  foldable_unique_ptr.foldl fn z rp s = Some (fold_table fn z o, s) /\
  foldable_unique_ptr.foldr fn z rp s = Some (fold_table fn z o, s) /\
  fold_table fn z Absent = z /\
  (forall x, fold_table fn z (Holding x) = fn z x).
Proof.
  intros Ho Hrp.
  destruct (fold_runs s p rp o fn z Ho Hrp) as (Hl & Hr & Hul & Hur).
  by split_and!.
Qed.
End Folds.

Lemma fold_single_application_witness :
  let s := example_state in
  let p : ptr := Some 11%positive in
  foldable_shared_ptr.foldl Z.sub 1%Z p s = Some ((-4)%Z, s) /\
  foldable_shared_ptr.foldr Z.sub 1%Z p s = Some ((-4)%Z, s) /\
  foldable_unique_ptr.foldl Z.sub 1%Z 3%positive s = Some ((-4)%Z, s) /\
  foldable_unique_ptr.foldr Z.sub 1%Z 3%positive s = Some ((-4)%Z, s) /\
  fold_table Z.sub 1%Z Absent = 1%Z /\
  (forall x, fold_table Z.sub 1%Z (Holding x) = (1 - x)%Z).
Proof.
  cbv zeta.
  change (-4)%Z with (fold_table Z.sub 1%Z (Holding 5%Z)).
  apply (fold_single_application (T := Z) example_state (Some 11%positive)
           3%positive (Holding 5%Z) Z.sub 1%Z);
    vm_compute; reflexivity.
Defined.

(** ** Derived [join] and [apply] *)

Section Derived.
Context {V T U : Type} `{Storable V T} `{Storable V U}
        `{Storable V ptr} `{Storable V (T -> U)}
        `{MoveCtor T} `{MoveCtor (T -> U)}.

Lemma yields_run {A} `{Storable V A} (m m' : M V ptr) (s : state V)
    (o : Opt A) :
  m s = m' s -> yields m' s o -> yields m s o.
Proof. intros Heq (r & s' & Hrun & Hv). exists r, s'. by rewrite Heq. Qed.

Lemma shared_join_yields (s : state V) (outer : ptr) (oo : Opt (Opt T)) :
  nested_value_of s outer = Some oo ->
  yields (deriving_shared_ptr.join outer) s (join_table oo).
Proof.
  unfold nested_value_of, deriving_shared_ptr.join. intros Hoo.
  destruct (value_of (T := ptr) s outer) as [[|inner]|] eqn:Ho;
    [| |discriminate].
  - destruct (value_of_inv _ _ _ Ho) as [[-> _]|(l & x & _ & [=] & _)].
    injection Hoo as <-. by exists None, s.
  - destruct (value_of_inv _ _ _ Ho) as [[_ [=]]|(l & x & -> & [= <-] & Hx)].
    destruct (value_of (T := T) s inner) as [oi|] eqn:Hi; [|discriminate].
    injection Hoo as <-. exists inner, s. split.
    + by rewrite (shared_bind_holding (T := ptr) _ s l inner Hx).
    + rewrite Hi. by destruct oi.
Qed.

Lemma unique_join_yields (s : state V) (router : ref) (outer : ptr)
    (oo : Opt (Opt T)) :
  vars s !! router = Some outer ->
  nested_value_of s outer = Some oo ->
  (forall inner, value_of (T := ptr) s outer = Some (Holding inner) ->
                 exclusive outer inner) ->
  yields (deriving_unique_ptr.join router) s (join_table oo).
Proof.
  unfold nested_value_of, deriving_unique_ptr.join. intros Hr Hoo Hex.
  destruct (value_of (T := ptr) s outer) as [[|inner]|] eqn:Ho;
    [| |discriminate].
  - destruct (value_of_inv _ _ _ Ho) as [[-> _]|(l & x & _ & [=] & _)].
    injection Hoo as <-. exists None, s. split; [|done].
    by apply unique_bind_null.
  - destruct (value_of_inv _ _ _ Ho) as [[_ [=]]|(l & x & -> & [= <-] & Hx)].
    destruct (value_of (T := T) s inner) as [oi|] eqn:Hi; [|discriminate].
    injection Hoo as <-. eexists inner, _. split.
    + by rewrite (unique_bind_holding (T := ptr) _ s router l inner Hr Hx).
    + replace (join_table (Holding oi)) with oi by by destruct oi.
      eapply value_of_frame; [exact Hi|].
      intros l' _ ->. simpl. rewrite lookup_insert_ne; [done|].
      intros <-. by specialize (Hex _ eq_refl eq_refl).
Qed.

Lemma shared_apply_yields (s : state V) (wf wa : ptr) (ofn : Opt (T -> U))
    (oa : Opt T) :
  value_of s wf = Some ofn -> value_of s wa = Some oa ->
  yields (deriving_shared_ptr.apply (T := T) (U := U) wf wa) s
         (apply_table ofn oa).
Proof.
  intros Hf Ha. unfold deriving_shared_ptr.apply.
  destruct (value_of_inv _ _ _ Hf) as [[-> ->]|(l & fn & -> & -> & Hfn)].
  - by exists None, s.
  - eapply yields_run;
      [exact (shared_bind_holding (T := T -> U) _ s l fn Hfn)|].
    replace (apply_table (Holding fn) oa) with (map_table fn oa)
      by by destruct oa.
    by apply shared_map_yields.
Qed.

Lemma unique_apply_yields (s : state V) (rwf rwa : ref) (wf wa : ptr)
    (ofn : Opt (T -> U)) (oa : Opt T) :
  vars s !! rwf = Some wf -> vars s !! rwa = Some wa ->
  value_of s wf = Some ofn -> value_of s wa = Some oa ->
  exclusive wf wa ->
  yields (deriving_unique_ptr.apply (T := T) (U := U) rwf rwa) s
         (apply_table ofn oa).
Proof.
  intros Hrf Hra Hf Ha Hex. unfold deriving_unique_ptr.apply.
  destruct (value_of_inv _ _ _ Hf) as [[-> ->]|(l & fn & -> & -> & Hfn)].
  - exists None, s. split; [|done]. by apply unique_bind_null.
  - replace (apply_table (Holding fn) oa) with (map_table fn oa)
      by by destruct oa.
    destruct (unique_map_yields (T := T) (U := U) fn
                (State (vars s) (<[l := to_cell (moved_from fn)]> (heap s)))
                rwa wa oa Hra) as (r & s' & Hrun & Hv).
    2: { exists r, s'. split; [|done].
         by rewrite (unique_bind_holding (T := T -> U) _ s rwf l fn Hrf Hfn). }
    eapply value_of_frame; [exact Ha|].
    intros l' _ ->. simpl. rewrite lookup_insert_ne; [done|].
    intros <-. by specialize (Hex eq_refl).
Qed.
End Derived.

Section DerivedTables.
Context {V T U : Type} `{Storable V T} `{Storable V U}
        `{Storable V ptr} `{Storable V (T -> U)}
        `{MoveCtor T} `{MoveCtor (T -> U)}.

(** C4: for both ownership kinds, [join] and [apply] are their definitions
    in terms of [bind], and they follow the truth tables.  Let [outer]
    stand for the doubly wrapped value [oo], [wf] for the optional function
    [ofn] and [wa] for the optional argument [oa], held by the pointer
    objects [router], [rwf], [rwa] (for the exclusive kind no pointer owns
    the storage it lives in, and [wf] and [wa] own distinct storage).  Then
    [join] returns a pointer standing for [join_table oo]: the inner value
    when both layers hold one, empty when either is empty; and [apply]
    returns a pointer standing for [apply_table ofn oa]: the function
    applied to the argument when both are held, empty for every
    combination with an empty operand. *)
Theorem derived_join_apply (s : state V) (outer wf wa : ptr)
    (router rwf rwa : ref) (oo : Opt (Opt T)) (ofn : Opt (T -> U))
    (oa : Opt T) :
  nested_value_of s outer = Some oo ->
  value_of s wf = Some ofn -> value_of s wa = Some oa ->
  vars s !! router = Some outer ->
  vars s !! rwf = Some wf -> vars s !! rwa = Some wa ->
  (forall inner, value_of (T := ptr) s outer = Some (Holding inner) ->
                 exclusive outer inner) ->
  exclusive wf wa ->
  (deriving_shared_ptr.join outer =
     monad_shared_ptr.bind (T := ptr) outer (fun inner => mret inner) /\
   deriving_unique_ptr.join router =
     monad_unique_ptr.bind (T := ptr) router (fun inner => mret inner) /\
   deriving_shared_ptr.apply (T := T) (U := U) wf wa =
     monad_shared_ptr.bind (T := T -> U) wf
       (fun fn => monad_shared_ptr.map (T := T) (U := U) fn wa) /\
   deriving_unique_ptr.apply (T := T) (U := U) rwf rwa =
     monad_unique_ptr.bind (T := T -> U) rwf
       (fun fn => monad_unique_ptr.map (T := T) (U := U) fn rwa)) /\
  (yields (deriving_shared_ptr.join outer) s (join_table oo) /\
   yields (deriving_unique_ptr.join router) s (join_table oo) /\
   yields (deriving_shared_ptr.apply (T := T) (U := U) wf wa) s
          (apply_table ofn oa) /\
   yields (deriving_unique_ptr.apply (T := T) (U := U) rwf rwa) s
          (apply_table ofn oa)) /\
  ((forall x : T, join_table (Holding (Holding x)) = Holding x) /\
   join_table (Holding (@Absent T)) = Absent /\
   join_table (@Absent (Opt T)) = Absent /\
   (forall (g : T -> U) (x : T),
      apply_table (Holding g) (Holding x) = Holding (g x)) /\
   (forall g : T -> U, apply_table (Holding g) Absent = Absent) /\
   (forall o : Opt T, apply_table (@Absent (T -> U)) o = Absent)).
Proof.
  intros Hoo Hf Ha Hro Hrf Hra Hexo Hexf. split_and!; try reflexivity.
  - by apply shared_join_yields.
  - by eapply unique_join_yields.
  - by apply shared_apply_yields.
  - by eapply unique_apply_yields.
Qed.
End DerivedTables.

Lemma derived_join_apply_witness :
  let s := example_state in
  let outer : ptr := Some 13%positive in
  let wf : ptr := Some 12%positive in
  let wa : ptr := Some 10%positive in
  yields (deriving_shared_ptr.join outer) s (Holding 9%Z) /\
  yields (deriving_unique_ptr.join 5%positive) s (Holding 9%Z) /\
  yields (deriving_shared_ptr.apply (T := Z) (U := Z) wf wa) s
         (Holding (-2)%Z) /\
  yields (deriving_unique_ptr.apply (T := Z) (U := Z) 4%positive 2%positive)
         s (Holding (-2)%Z).
Proof.
  cbv zeta.
  change (Holding 9%Z) with (join_table (Holding (Holding 9%Z))).
  change (Holding (-2)%Z) with (apply_table (Holding Z.opp) (Holding 2%Z)).
  apply (derived_join_apply (T := Z) (U := Z) example_state
           (Some 13%positive) (Some 12%positive) (Some 10%positive)
           5%positive 4%positive 2%positive
           (Holding (Holding 9%Z)) (Holding Z.opp) (Holding 2%Z)).
  - vm_compute; reflexivity.
  - vm_compute; reflexivity.
  - vm_compute; reflexivity.
  - vm_compute; reflexivity.
  - vm_compute; reflexivity.
  - vm_compute; reflexivity.
  - intros inner Hv. vm_compute in Hv. injection Hv as <-. intros [=].
  - intros [=].
Defined.

(** ** Ownership transfer and well-formed inputs *)

Section Soundness.
Context {V T : Type} `{Storable V T}.

Lemma keeps_refl (h : gmap loc V) : keeps_objects T h h.
Proof. by intros l. Qed.

Lemma keeps_store (h h' : gmap loc V) (l : loc) (x : T) :
  keeps_objects T h h' -> keeps_objects T h (<[l := to_cell x]> h').
Proof.
  intros Hk l' Hl'. destruct (decide (l = l')) as [->|Hne].
  - rewrite lookup_insert_eq. simpl. rewrite of_to_cell. eauto.
  - rewrite lookup_insert_ne by done. by apply Hk.
Qed.

Lemma keeps_alloc (h h' : gmap loc V) (c : V) :
  keeps_objects T h h' ->
  keeps_objects T h (<[fresh (dom h') := c]> h').
Proof.
  intros Hk l Hl. specialize (Hk l Hl).
  rewrite lookup_insert_ne; [done|].
  intros <-.
  assert (h' !! fresh (dom h') = None) as Hf by apply not_elem_of_dom, is_fresh.
  rewrite Hf in Hk. simpl in Hk. by destruct Hk.
Qed.

Lemma vars_kept (vs : gmap ref ptr) :
  forall r p, vs !! r = Some p -> vs !! r = Some p \/ vs !! r = Some None.
Proof. intros r p Hr. by left. Qed.

Lemma vars_emptied (vs : gmap ref ptr) (a : ref) :
  forall r p, vs !! r = Some p ->
              <[a := None]> vs !! r = Some p \/ <[a := None]> vs !! r = Some None.
Proof.
  intros r p Hr. destruct (decide (a = r)) as [->|Hne].
  - right. apply lookup_insert_eq.
  - left. by rewrite lookup_insert_ne.
Qed.

Lemma sound_step_value_of (s s' : state V) (p : ptr) :
  sound_step T s s' ->
  is_Some (value_of (T := T) s p) -> is_Some (value_of (T := T) s' p).
Proof.
  intros [_ Hk] [o Ho]. destruct p as [l|]; [|by eexists].
  simpl in *. unfold heap_load in *.
  destruct (heap s !! l ≫= of_cell) as [x|] eqn:Hx; [|discriminate].
  destruct (Hk l) as [x' Hx']; [by rewrite Hx|]. rewrite Hx'. eauto.
Qed.

Lemma sound_step_value_at (s s' : state V) (r : ref) :
  sound_step T s s' ->
  is_Some (value_at (T := T) s r) -> is_Some (value_at (T := T) s' r).
Proof.
  intros Hstep Hr. unfold value_at in *.
  destruct (vars s !! r) as [p|] eqn:Hp; [|by destruct Hr].
  destruct Hstep as [Hvars Hk].
  destruct (Hvars r p Hp) as [-> | ->]; [|by eexists].
  by apply (sound_step_value_of s s' p).
Qed.

Lemma sound_step_preserves {A} (m : M V A) (s s' : state V) (x : A)
    (a b : ptr) (ra rb : ref) :
  m s = Some (x, s') -> sound_step T s s' ->
  inputs_valid (T := T) s a b ra rb ->
  preserves (T := T) m s a b ra rb.
Proof.
  intros Hrun Hstep (Ha & Hb & Hra & Hrb). exists x, s'. split; [done|].
  split_and!;
    [by apply (sound_step_value_of s s') ..
    | by apply (sound_step_value_at s s')
    | by apply (sound_step_value_at s s')].
Qed.

Lemma inputs_valid_intro (s : state V) (a b : ptr) (ra rb : ref)
    (oa ob : Opt T) :
  value_of s a = Some oa -> value_of s b = Some ob ->
  vars s !! ra = Some a -> vars s !! rb = Some b ->
  inputs_valid (T := T) s a b ra rb.
Proof.
  intros Ha Hb Hra Hrb. unfold inputs_valid, value_at.
  rewrite Hra, Hrb, Ha, Hb. by split_and!.
Qed.
End Soundness.

(** Closes [sound_step] goals on the stores the run lemmas produce. *)
Ltac sound :=
  split; simpl;
  [ first [ apply vars_kept | apply vars_emptied ]
  | repeat first [ apply keeps_refl | apply keeps_store | apply keeps_alloc ] ].

Section UniqueSound.
Context {V T : Type} `{Storable V T} `{monoid T} `{MoveCtor T}.
Import monoid_unique_ptr.

Lemma unique_append_sound (ka kb : pass) (s : state V) (a b : ref)
    (pa pb : ptr) (oa ob : Opt T) :
  vars s !! a = Some pa -> vars s !! b = Some pb ->
  value_of s pa = Some oa -> value_of s pb = Some ob ->
  exists r s', unique_append.append ka kb a b s = Some (r, s') /\
               sound_step T s s'.
Proof.
  intros Ha Hb Hoa Hob.
  destruct (value_of_inv _ _ _ Hoa) as [[-> ->]|(la & x & -> & -> & Hx)];
    destruct (value_of_inv _ _ _ Hob) as [[-> ->]|(lb & y & -> & -> & Hy)];
    destruct ka, kb; simpl unique_append.append.
  - eexists _, _. split; [by apply append_cc_neither|sound].
  - eexists _, _. split; [by eapply append_cr_move|sound].
  - eexists _, _. split; [by eapply append_rc_move|sound].
  - eexists _, _. split; [by eapply append_rr_move|sound].
  - eexists _, _. split; [by eapply append_cc_right|sound].
  - eexists _, _. split; [by eapply append_cr_move|sound].
  - eexists _, _. split; [by eapply append_rc_right|sound].
  - eexists _, _. split; [by eapply append_rr_move|sound].
  - eexists _, _. split; [by eapply append_cc_left|sound].
  - eexists _, _. split; [by eapply append_cr_left|sound].
  - eexists _, _. split; [by eapply append_rc_move|sound].
  - eexists _, _. split; [by eapply append_rr_left|sound].
  - eexists _, _. split; [by eapply append_cc_both|sound].
  - eexists _, _. split; [by eapply append_cr_both|sound].
  - eexists _, _. split; [by eapply append_rc_both|sound].
  - eexists _, _. split; [by eapply append_rr_both|sound].
Qed.

(** [append(&&, const&)] always empties its first operand. *)
Lemma append_rc_source (s : state V) (a b : ref) (pa pb : ptr)
    (oa ob : Opt T) :
  vars s !! a = Some pa -> vars s !! b = Some pb ->
  value_of s pa = Some oa -> value_of s pb = Some ob ->
  exists r s', append_rc a b s = Some (r, s') /\ vars s' !! a = Some None.
Proof.
  intros Ha Hb Hoa Hob.
  destruct (value_of_inv _ _ _ Hob) as [[-> ->]|(lb & y & -> & -> & Hy)].
  - eexists _, _. split; [by eapply append_rc_move|]. apply lookup_insert_eq.
  - destruct (value_of_inv _ _ _ Hoa) as [[-> ->]|(la & x & -> & -> & Hx)].
    + eexists _, _. split; [by eapply append_rc_right|done].
    + eexists _, _. split; [by eapply append_rc_both|].
      apply lookup_insert_eq.
Qed.

(** [append(const&, &&)] always empties its second operand. *)
Lemma append_cr_source (s : state V) (a b : ref) (pa pb : ptr)
    (oa ob : Opt T) :
  vars s !! a = Some pa -> vars s !! b = Some pb ->
  value_of s pa = Some oa -> value_of s pb = Some ob ->
  exists r s', append_cr a b s = Some (r, s') /\ vars s' !! b = Some None.
Proof.
  intros Ha Hb Hoa Hob.
  destruct (value_of_inv _ _ _ Hoa) as [[-> ->]|(la & x & -> & -> & Hx)].
  - eexists _, _. split; [by eapply append_cr_move|]. apply lookup_insert_eq.
  - destruct (value_of_inv _ _ _ Hob) as [[-> ->]|(lb & y & -> & -> & Hy)].
    + eexists _, _. split; [by eapply append_cr_left|done].
    + eexists _, _. split; [by eapply append_cr_both|].
      apply lookup_insert_eq.
Qed.

(** [append(&&, &&)] always empties its first operand, and its second
    unless both hold a value: then the second, if it is another object,
    keeps its pointer, to an object left moved from. *)
Lemma append_rr_sources (s : state V) (a b : ref) (pa pb : ptr)
    (oa ob : Opt T) :
  vars s !! a = Some pa -> vars s !! b = Some pb ->
  value_of s pa = Some oa -> value_of s pb = Some ob ->
  exists r s', append_rr a b s = Some (r, s') /\
    vars s' !! a = Some None /\
    if nonnull pa && nonnull pb
    then a ≠ b ->
         vars s' !! b = Some pb /\
         (exclusive pa pb ->
          value_of s' pb = Some (map_table moved_from ob))
    else vars s' !! b = Some None.
Proof.
  intros Ha Hb Hoa Hob.
  destruct (value_of_inv _ _ _ Hoa) as [[-> ->]|(la & x & -> & -> & Hx)].
  - eexists _, _. split; [by eapply append_rr_move|]. simpl. split.
    + destruct (decide (b = a)) as [->|Hne]; [apply lookup_insert_eq|].
      by rewrite lookup_insert_ne.
    + apply lookup_insert_eq.
  - destruct (value_of_inv _ _ _ Hob) as [[-> ->]|(lb & y & -> & -> & Hy)].
    + eexists _, _. split; [by eapply append_rr_left|]. simpl. split.
      * apply lookup_insert_eq.
      * destruct (decide (a = b)) as [->|Hne]; [apply lookup_insert_eq|].
        by rewrite lookup_insert_ne.
    + eexists _, _. split; [by eapply append_rr_both|]. simpl. split.
      * apply lookup_insert_eq.
      * intros Hne. split; [by rewrite lookup_insert_ne|].
        intros Hex. unfold heap_load. simpl.
        assert (la ≠ lb) as Hl by (intros ->; by specialize (Hex eq_refl)).
        rewrite !lookup_insert_ne by done.
        rewrite lookup_insert_eq. simpl. by rewrite of_to_cell.
Qed.
End UniqueSound.

Section OtherSound.
Context {V T U : Type} `{Storable V T} `{Storable V U} `{MoveCtor T}.

Lemma sound_step_refl (s : state V) : sound_step T s s.
Proof. split; [apply vars_kept|apply keeps_refl]. Qed.

Lemma shared_append_sound `{monoid T} (s : state V) (a b : ptr)
    (oa ob : Opt T) :
  value_of s a = Some oa -> value_of s b = Some ob ->
  exists r s', monoid_shared_ptr.append a b s = Some (r, s') /\
               sound_step T s s'.
Proof.
  intros Ha Hb.
  destruct (value_of_inv _ _ _ Ha) as [[-> ->]|(la & x & -> & -> & Hx)].
  - exists b, s. split; [done|apply sound_step_refl].
  - destruct (value_of_inv _ _ _ Hb) as [[-> ->]|(lb & y & -> & -> & Hy)].
    + exists (Some la), s. split; [done|apply sound_step_refl].
    + eexists _, _. split; [by apply shared_append_both|sound].
Qed.

Lemma shared_map_sound (f : T -> U) (s : state V) (p : ptr) (o : Opt T) :
  value_of s p = Some o ->
  exists r s', monad_shared_ptr.map f p s = Some (r, s') /\ sound_step T s s'.
Proof.
  intros Ho.
  destruct (value_of_inv _ _ _ Ho) as [[-> ->]|(l & x & -> & -> & Hx)].
  - exists None, s. split; [done|apply sound_step_refl].
  - eexists _, _. split; [by apply shared_map_holding|sound].
Qed.

Lemma unique_map_sound (f : T -> U) (s : state V) (rp : ref) (p : ptr)
    (o : Opt T) :
  vars s !! rp = Some p -> value_of s p = Some o ->
  exists r s', monad_unique_ptr.map f rp s = Some (r, s') /\
               sound_step T s s' /\ vars s' = vars s.
Proof.
  intros Hrp Ho.
  destruct (value_of_inv _ _ _ Ho) as [[-> ->]|(l & x & -> & -> & Hx)].
  - exists None, s. split; [by apply unique_map_null|].
    split; [apply sound_step_refl|done].
  - eexists _, _. split; [by apply unique_map_holding|].
    split; [sound|done].
Qed.

Lemma unique_map_rv_sound (g : T -> T) (s : state V) (rp : ref) (p : ptr)
    (o : Opt T) :
  vars s !! rp = Some p -> value_of s p = Some o ->
  exists r s', monad_unique_ptr.map_rv g rp s = Some (r, s') /\
               sound_step T s s' /\ vars s' !! rp = Some None.
Proof.
  intros Hrp Ho.
  destruct (value_of_inv _ _ _ Ho) as [[-> ->]|(l & x & -> & -> & Hx)].
  - eexists _, _. split; [by apply unique_map_rv_null|].
    split; [sound|apply lookup_insert_eq].
  - eexists _, _. split; [by apply unique_map_rv_holding|].
    split; [sound|apply lookup_insert_eq].
Qed.

Lemma unique_orDo_sound (s : state V) (ra rb : ref) (a b : ptr)
    (oa ob : Opt T) :
  vars s !! ra = Some a -> vars s !! rb = Some b ->
  value_of s a = Some oa -> value_of s b = Some ob ->
  exists r s', monoidA_unique_ptr.orDo (T := T) ra rb s = Some (r, s') /\
               sound_step T s s'.
Proof.
  intros Hra Hrb Hoa Hob. unfold monoidA_unique_ptr.orDo.
  destruct (value_of_inv _ _ _ Hoa) as [[-> ->]|(la & x & -> & -> & Hx)].
  - destruct (value_of_inv _ _ _ Hob) as [[-> ->]|(lb & y & -> & -> & Hy)].
    + exists None, s. split; [|apply sound_step_refl].
      run_step. simpl. by apply run_dup_unique_null.
    + eexists _, _.
      split; [run_step; simpl; by eapply run_dup_unique_holding|sound].
  - eexists _, _.
    split; [run_step; simpl; by eapply run_dup_unique_holding|sound].
Qed.

(** The exclusive [bind] hands [f] a store in which the pointee is left
    moved from. *)
Lemma unique_bind_sound (s : state V) (ra : ref) (a : ptr) (oa : Opt T) :
  vars s !! ra = Some a -> value_of s a = Some oa ->
  exists s1, sound_step T s s1 /\ vars s1 = vars s /\
    forall k : T -> M V ptr,
      monad_unique_ptr.bind ra k s =
        match oa with
        | Absent => Some (None, s1)
        | Holding x => k x s1
        end.
Proof.
  intros Hra Hoa.
  destruct (value_of_inv _ _ _ Hoa) as [[-> ->]|(l & x & -> & -> & Hx)].
  - exists s. split; [apply sound_step_refl|]. split; [done|].
    intros k. by apply unique_bind_null.
  - exists (State (vars s) (<[l := to_cell (moved_from x)]> (heap s))).
    split; [sound|]. split; [done|]. intros k. by apply unique_bind_holding.
Qed.
End OtherSound.

Section Transfer.
Context {V T U : Type} `{Storable V T} `{Storable V U} `{monoid T}
        `{MoveCtor T}.

(** C8, amended: an operation of the exclusive kind that takes an operand
    by ownership transfer leaves that operand's pointer object empty
    afterwards -- [append(&&, const&)] its first operand,
    [append(const&, &&)] its second, [map(F, &&)] its argument, and
    [append(&&, &&)] its first operand, and its second when at most one
    operand holds a value.  When both operands of [append(&&, &&)] hold a
    value, the second, if it is another pointer object, keeps its pointer,
    and its object (if not shared with the first) holds the moved-from
    value.  [map(F, const&)] and [bind], which take their argument by
    alias and move only the held value out, leave every pointer object as
    it was.
    No operation of either kind leaves an input in a state that is neither
    empty nor holding a live value: after each of them every input is null
    or points to a live object of the pointee type; [bind] runs its
    function in such a store. *)
Theorem transfer_and_well_formed_inputs (s : state V) (a b : ptr)
    (ra rb : ref) (oa ob : Opt T) (f : T -> U) (g : T -> T)
    (fn : U -> T -> U) (z : U) :
  value_of s a = Some oa -> value_of s b = Some ob ->
  vars s !! ra = Some a -> vars s !! rb = Some b ->
  ((exists r s', monoid_unique_ptr.append_rc ra rb s = Some (r, s') /\
                 vars s' !! ra = Some None) /\
   (exists r s', monoid_unique_ptr.append_cr ra rb s = Some (r, s') /\
                 vars s' !! rb = Some None) /\
   (exists r s', monoid_unique_ptr.append_rr ra rb s = Some (r, s') /\
                 vars s' !! ra = Some None /\
                 if nonnull a && nonnull b
                 then ra ≠ rb ->
                      vars s' !! rb = Some b /\
                      (exclusive a b ->
                       value_of s' b = Some (map_table moved_from ob))
                 else vars s' !! rb = Some None) /\
   (exists r s', monad_unique_ptr.map_rv g ra s = Some (r, s') /\
                 vars s' !! ra = Some None) /\
   (exists r s', monad_unique_ptr.map f ra s = Some (r, s') /\
                 vars s' = vars s)) /\
  (preserves (T := T) (monoid_shared_ptr.append a b) s a b ra rb /\
   preserves (T := T) (monoidA_shared_ptr.orDo a b) s a b ra rb /\
   preserves (T := T) (monad_shared_ptr.map f a) s a b ra rb /\
   preserves (T := T) (foldable_shared_ptr.foldl fn z a) s a b ra rb /\
   preserves (T := T) (foldable_shared_ptr.foldr fn z a) s a b ra rb /\
   (forall ka kb,
      preserves (T := T) (unique_append.append ka kb ra rb) s a b ra rb) /\
   preserves (T := T) (monoidA_unique_ptr.orDo (T := T) ra rb) s a b ra rb /\
   preserves (T := T) (monad_unique_ptr.map f ra) s a b ra rb /\
   preserves (T := T) (monad_unique_ptr.map_rv g ra) s a b ra rb /\
   preserves (T := T) (foldable_unique_ptr.foldl fn z ra) s a b ra rb /\
   preserves (T := T) (foldable_unique_ptr.foldr fn z ra) s a b ra rb) /\
  ((forall k : T -> M V ptr,
      monad_shared_ptr.bind a k s =
        match oa with
        | Absent => Some (None, s)
        | Holding x => k x s
        end) /\
   (exists s1 : state V,
      inputs_valid (T := T) s1 a b ra rb /\ vars s1 = vars s /\
      forall k : T -> M V ptr,
        monad_unique_ptr.bind ra k s =
          match oa with
          | Absent => Some (None, s1)
          | Holding x => k x s1
          end)).
Proof.
  intros Hoa Hob Hra Hrb.
  pose proof (inputs_valid_intro s a b ra rb oa ob Hoa Hob Hra Hrb) as Hin.
  pose proof (fold_runs s a ra oa fn z Hoa Hra)
    as (Hfl & Hfr & Hufl & Hufr).
  split_and!.
  - by eapply append_rc_source.
  - by eapply append_cr_source.
  - by eapply append_rr_sources.
  - destruct (unique_map_rv_sound g s ra a oa Hra Hoa)
      as (r & s' & Hrun & _ & Hempty).
    by exists r, s'.
  - destruct (unique_map_sound f s ra a oa Hra Hoa)
      as (r & s' & Hrun & _ & Hvars).
    by exists r, s'.
  - destruct (shared_append_sound s a b oa ob Hoa Hob) as (r & s' & Hrun & Hs).
    by eapply sound_step_preserves.
  - apply (sound_step_preserves _ s s (if nonnull a then a else b));
      [by destruct a|apply sound_step_refl|done].
  - destruct (shared_map_sound f s a oa Hoa) as (r & s' & Hrun & Hs).
    by eapply sound_step_preserves.
  - eapply sound_step_preserves; [exact Hfl|apply sound_step_refl|done].
  - eapply sound_step_preserves; [exact Hfr|apply sound_step_refl|done].
  - intros ka kb.
    destruct (unique_append_sound ka kb s ra rb a b oa ob Hra Hrb Hoa Hob)
      as (r & s' & Hrun & Hs).
    by eapply sound_step_preserves.
  - destruct (unique_orDo_sound s ra rb a b oa ob Hra Hrb Hoa Hob)
      as (r & s' & Hrun & Hs).
    by eapply sound_step_preserves.
  - destruct (unique_map_sound f s ra a oa Hra Hoa)
      as (r & s' & Hrun & Hs & _).
    by eapply sound_step_preserves.
  - destruct (unique_map_rv_sound g s ra a oa Hra Hoa)
      as (r & s' & Hrun & Hs & _).
    by eapply sound_step_preserves.
  - eapply sound_step_preserves; [exact Hufl|apply sound_step_refl|done].
  - eapply sound_step_preserves; [exact Hufr|apply sound_step_refl|done].
  - intros k.
    destruct (value_of_inv _ _ _ Hoa) as [[-> ->]|(l & x & -> & -> & Hx)].
    + apply shared_bind_null.
    + by apply shared_bind_holding.
  - destruct (unique_bind_sound s ra a oa Hra Hoa)
      as (s1 & Hs & Hvars & Hbind).
    exists s1. split; [|done].
    destruct Hin as (Ha & Hb & Hva & Hvb). split_and!.
    + by apply (sound_step_value_of s s1).
    + by apply (sound_step_value_of s s1).
    + by apply (sound_step_value_at s s1).
    + by apply (sound_step_value_at s s1).
Qed.
End Transfer.

(** C8 as stated fails: [append(&&, &&)] of the pointer objects [2] and [3]
    of the example store, which own the integers 2 and 5, returns the
    pointer taken from [2], now holding 7, and empties [2]; but [3] still
    holds the address [11] of its object. *)
Lemma append_rr_keeps_second_operand :
  (exists s' : state cell,
     monoid_unique_ptr.append_rr (T := Z) 2%positive 3%positive example_state
       = Some (Some 10%positive, s') /\
     value_of s' (Some 10%positive) = Some (Holding 7%Z) /\
     vars s' !! 2%positive = Some None /\
     vars s' !! 3%positive = Some (Some 11%positive) /\
     value_of s' (Some 11%positive) = Some (Holding 5%Z)) /\
  ~ leaves_sources_empty (monoid_unique_ptr.append_rr (T := Z))
      example_state 2%positive 3%positive.
Proof.
  pose proof (append_rr_both (T := Z) example_state 2%positive 3%positive
                10%positive 11%positive 2%Z 5%Z) as Hrun.
  repeat (lapply Hrun; [clear Hrun; intros Hrun|vm_compute; reflexivity]).
  split.
  - eexists. split; [exact Hrun|]. split_and!; vm_compute; reflexivity.
  - intros Hclaim. destruct (Hclaim _ _ Hrun) as [_ Hb].
    vm_compute in Hb. discriminate Hb.
Qed.

Lemma transfer_and_well_formed_inputs_witness :
  let s := example_state in
  let a : ptr := Some 10%positive in
  let b : ptr := Some 11%positive in
  let ra := 2%positive in
  let rb := 3%positive in
  (exists r s', monoid_unique_ptr.append_rr (T := Z) ra rb s = Some (r, s') /\
                vars s' !! ra = Some None /\
                (ra ≠ rb ->
                 vars s' !! rb = Some b /\
                 (exclusive a b ->
                  value_of s' b = Some (map_table moved_from (Holding 5%Z))))) /\
  (forall ka kb,
     preserves (T := Z) (unique_append.append ka kb ra rb) s a b ra rb) /\
  preserves (T := Z) (monad_unique_ptr.map_rv Z.succ ra) s a b ra rb.
Proof.
  cbv zeta.
  destruct (transfer_and_well_formed_inputs (T := Z) (U := Z) example_state
              (Some 10%positive) (Some 11%positive) 2%positive 3%positive
              (Holding 2%Z) (Holding 5%Z) Z.opp Z.succ Z.sub 0%Z)
    as ((_ & _ & Hrr & _) & (_ & _ & _ & _ & _ & Happ & _ & _ & Hrv & _) & _);
    [vm_compute; reflexivity ..|].
  split; [exact Hrr|]. split; [exact Happ|exact Hrv].
Defined.

(** ** The repository's tests hold of the model *)

Example memory_test_append_shared : result_of test_append_shared = Some 4%Z.
Proof. vm_compute. reflexivity. Qed.

Example memory_test_append_unique : result_of test_append_unique = Some 4%Z.
Proof. vm_compute. reflexivity. Qed.

Example memory_test_map : result_of test_map = Some ((-3)%Z, (-3)%Z).
Proof. vm_compute. reflexivity. Qed.

Example memory_test_apply_shared :
  result_of (pr ← test_apply_shared (monad_shared_ptr.pure 2%Z)
                                    (monad_shared_ptr.pure 3%Z);
             deref pr) = Some (-1)%Z /\
  result_of (test_apply_shared (mret None) (monad_shared_ptr.pure 2%Z))
    = Some None /\
  result_of (test_apply_shared (monad_shared_ptr.pure 2%Z) (mret None))
    = Some None /\
  result_of (test_apply_shared (mret None) (mret None)) = Some None.
Proof. vm_compute. by split_and!. Qed.

Example memory_test_apply_unique :
  result_of (pr ← test_apply_unique (monad_unique_ptr.pure 2%Z)
                                    (monad_unique_ptr.pure 3%Z);
             deref pr) = Some (-1)%Z /\
  result_of (test_apply_unique (monad_unique_ptr.pure 2%Z) (mret None))
    = Some None /\
  result_of (test_apply_unique (mret None) (monad_unique_ptr.pure 3%Z))
    = Some None /\
  result_of (test_apply_unique (mret None) (mret None)) = Some None.
Proof. vm_compute. by split_and!. Qed.

Example memory_test_fold :
  result_of (test_fold (monad_shared_ptr.pure 2%Z)) = Some (3%Z, 3%Z) /\
  result_of (test_fold (mret None)) = Some (1%Z, 1%Z).
Proof. vm_compute. by split_and!. Qed.

(** * Further properties *)

(** ** The two revisions of the exclusive [append] *)

Ltac match_head t :=
  lazymatch t with
  | match ?x with _ => _ end => match_head x
  | _ => t
  end.

Ltac destruct_head h :=
  lazymatch h with
  | None => fail
  | Some _ => fail
  | _ => first [ destruct h as [[?|]|] eqn:? | destruct h as [[? ?]|] eqn:? ]
  end.

(** Runs both sides of an equation between computations in step: reads of
    pointer objects are evaluated, any other primitive is split into its
    outcomes on both sides at once. *)
Ltac both_step :=
  repeat (progress (cbn [nonnull andb]; cbv beta iota;
                    rewrite ?run_bind, ?run_ret; unfold move_ptr, get_ref;
                    repeat match goal with
                           | E : ?h = _ |- context [?h] => rewrite E
                           end));
  lazymatch goal with
  | |- ?L = ?R =>
      first
        [ reflexivity
        | let h := match_head L in destruct_head h
        | let h := match_head R in destruct_head h ]
  end.

Section Revisions.
Context {V T : Type} `{Storable V T} `{monoid T} `{MoveCtor T}.

(** X1: the two revisions of the exclusive [append] agree.  On every store
    and for every pair of operands, well formed or not, each overload of
    the revision with nested tests gives the same outcome as the overload
    of [ftl/memory.h]: the same pointer and the same final store, or no
    result for both. *)
Theorem nested_append_agrees (a b : ref) (s : state V) :
  nested_monoid_unique_ptr.append_cc a b s = monoid_unique_ptr.append_cc a b s /\
  nested_monoid_unique_ptr.append_rc a b s = monoid_unique_ptr.append_rc a b s /\
  nested_monoid_unique_ptr.append_cr a b s = monoid_unique_ptr.append_cr a b s /\
  nested_monoid_unique_ptr.append_rr a b s = monoid_unique_ptr.append_rr a b s.
Proof.
  split_and!.
  - unfold nested_monoid_unique_ptr.append_cc, monoid_unique_ptr.append_cc,
      nested_monoid_unique_ptr.dup, monoid_unique_ptr.dup.
    repeat both_step.
  - unfold nested_monoid_unique_ptr.append_rc, monoid_unique_ptr.append_rc,
      nested_monoid_unique_ptr.dup, monoid_unique_ptr.dup.
    repeat both_step.
  - unfold nested_monoid_unique_ptr.append_cr, monoid_unique_ptr.append_cr,
      nested_monoid_unique_ptr.dup, monoid_unique_ptr.dup.
    repeat both_step.
  - unfold nested_monoid_unique_ptr.append_rr, monoid_unique_ptr.append_rr.
    repeat both_step.
Qed.
End Revisions.

(** ** Monad laws *)

Section MonadLaws.
Context {V T U : Type} `{Storable V T} `{Storable V U}
        `{MoveCtor T} `{MoveCtor U}.

Lemma shared_bind_invalid (f : T -> M V ptr) (s : state V) (l : loc) :
  heap_load (T := T) s l = None -> monad_shared_ptr.bind (Some l) f s = None.
Proof.
  intros Hl. unfold monad_shared_ptr.bind. simpl.
  rewrite run_bind. unfold load. by rewrite Hl.
Qed.

Lemma unique_bind_dangling (f : T -> M V ptr) (s : state V) (a : ref) :
  vars s !! a = None -> monad_unique_ptr.bind a f s = None.
Proof.
  intros Ha. unfold monad_unique_ptr.bind, get_ref.
  rewrite run_bind. by rewrite Ha.
Qed.

Lemma unique_bind_invalid (f : T -> M V ptr) (s : state V) (a : ref)
    (l : loc) :
  vars s !! a = Some (Some l) -> heap_load (T := T) s l = None ->
  monad_unique_ptr.bind a f s = None.
Proof.
  intros Ha Hl. unfold monad_unique_ptr.bind, monad_unique_ptr.move_pointee.
  run_step. simpl. rewrite !run_bind. erewrite @run_get_ref by eassumption.
  cbv beta iota. simpl deref. rewrite ?run_bind. unfold load. by rewrite Hl.
Qed.

Lemma run_shared_pure (s : state V) (x : T) :
  monad_shared_ptr.pure x s =
    Some (Some (fresh (dom (heap s))),
          State (vars s) (<[fresh (dom (heap s)) := to_cell x]> (heap s))).
Proof. reflexivity. Qed.

Lemma run_unique_pure (s : state V) (x : T) :
  monad_unique_ptr.pure x s =
    Some (Some (fresh (dom (heap s))),
          State (vars s) (<[fresh (dom (heap s)) := to_cell x]> (heap s))).
Proof. reflexivity. Qed.

(** X2: [pure] and the left identity law, for both ownership kinds.
    [pure(x)] always returns a pointer to a new object holding [x], at an
    address that was not live, and changes nothing else; and
    [bind(pure(x), f)] is [f x] run in the store that [pure] leaves (for the
    exclusive kind, with the new object left moved from and the pointer
    held by a temporary). *)
Theorem pure_left_identity (s : state V) (x : T) :
  exists (l : loc) (s1 : state V),
    monad_shared_ptr.pure x s = Some (Some l, s1) /\
    monad_unique_ptr.pure x s = Some (Some l, s1) /\
    heap s !! l = None /\
    value_of s1 (Some l) = Some (Holding x) /\
    vars s1 = vars s /\
    (forall l', l' ≠ l -> heap s1 !! l' = heap s !! l') /\
    (forall f : T -> M V ptr,
       (p ← monad_shared_ptr.pure x; monad_shared_ptr.bind p f) s = f x s1) /\
    exists t : ref,
      vars s !! t = None /\
      forall f : T -> M V ptr,
        (o ← monad_unique_ptr.pure x; t ← new_ref o;
         monad_unique_ptr.bind t f) s =
        f x (State (<[t := Some l]> (vars s))
                   (<[l := to_cell (moved_from x)]> (heap s1))).
Proof.
  exists (fresh (dom (heap s))),
         (State (vars s) (<[fresh (dom (heap s)) := to_cell x]> (heap s))).
  split_and!; try reflexivity.
  - apply fresh_not_live.
  - apply value_of_new.
  - intros l' Hne. simpl. by rewrite lookup_insert_ne.
  - intros f. rewrite run_bind, run_shared_pure.
    apply shared_bind_holding, heap_load_insert_eq.
  - exists (fresh (dom (vars s))). split.
    + apply not_elem_of_dom, is_fresh.
    + intros f. rewrite run_bind, run_unique_pure.
      rewrite run_bind, run_new_ref. cbv beta iota.
      erewrite @unique_bind_holding; [reflexivity| |].
      * simpl. apply lookup_insert_eq.
      * apply heap_load_insert_eq.
Qed.

(** X4: [bind] is associative.  For the shared kind
    [bind(bind(p, f), g)] and [bind(p, \x -> bind(f(x), g))] are the same
    computation on every store.  For the exclusive kind, with the
    intermediate pointer bound to a temporary, they return the same pointer
    and leave the same heap (on an empty [a] the first leaves one more,
    empty, temporary). *)
Theorem bind_associative (s : state V) (p : ptr) (a : ref)
    (f : T -> M V ptr) (g : U -> M V ptr) :
  (r ← monad_shared_ptr.bind p f; monad_shared_ptr.bind r g) s =
    monad_shared_ptr.bind p
      (fun x => r ← f x; monad_shared_ptr.bind r g) s /\
  outcome (r ← monad_unique_ptr.bind a f; t ← new_ref r;
           monad_unique_ptr.bind t g) s =
    outcome (monad_unique_ptr.bind a
               (fun x => r ← f x; t ← new_ref r;
                         monad_unique_ptr.bind t g)) s.
Proof.
  split.
  - destruct p as [l|]; [|reflexivity].
    rewrite run_bind.
    destruct (heap_load (T := T) s l) as [x|] eqn:Hx.
    + rewrite !(shared_bind_holding _ s l x Hx). by rewrite run_bind.
    + by rewrite !(shared_bind_invalid _ s l Hx).
  - unfold outcome. destruct (vars s !! a) as [[l|]|] eqn:Ha.
    + destruct (heap_load (T := T) s l) as [x|] eqn:Hx.
      * rewrite run_bind.
        rewrite !(unique_bind_holding _ s a l x Ha Hx).
        by rewrite run_bind.
      * rewrite run_bind. by rewrite !(unique_bind_invalid _ s a l Ha Hx).
    + rewrite run_bind. rewrite !(unique_bind_null _ s a Ha).
      rewrite run_bind, run_new_ref. cbv beta iota.
      rewrite (unique_bind_null (T := U)); [done|].
      simpl. apply lookup_insert_eq.
    + rewrite run_bind. by rewrite !(unique_bind_dangling _ s a Ha).
Qed.
End MonadLaws.

Section RightIdentity.
Context {V T : Type} `{Storable V T} `{MoveCtor T}.

(** X3: the right identity law holds on values, by copy.  For both
    ownership kinds [bind(m, pure)] returns a pointer standing for the
    value [m] stands for; when not null it is not [m]'s own address but
    that of a new object, so for the shared kind the result does not share
    ownership with [m]. *)
Theorem bind_pure_copies (s : state V) (p : ptr) (rp : ref) (o : Opt T) :
  value_of s p = Some o -> vars s !! rp = Some p ->
  (exists r s', monad_shared_ptr.bind p monad_shared_ptr.pure s = Some (r, s') /\
                value_of s' r = Some o /\
                (r = None <-> p = None) /\
                forall l, r = Some l -> heap s !! l = None) /\
  (exists r s', monad_unique_ptr.bind rp monad_unique_ptr.pure s = Some (r, s') /\
                value_of s' r = Some o /\
                (r = None <-> p = None) /\
                forall l, r = Some l -> heap s !! l = None).
Proof.
  intros Ho Hrp.
  destruct (value_of_inv _ _ _ Ho) as [[-> ->]|(l & x & -> & -> & Hx)].
  - split.
    + exists None, s. by split_and!.
    + exists None, s. split; [by apply unique_bind_null|]. by split_and!.
  - split.
    + eexists _, _. split.
      { rewrite (shared_bind_holding _ s l x Hx). reflexivity. }
      split_and!.
      * apply value_of_new.
      * split; discriminate.
      * intros l' [= <-]. apply fresh_not_live.
    + eexists _, _. split.
      { rewrite (unique_bind_holding _ s rp l x Hrp Hx). reflexivity. }
      split_and!.
      * apply value_of_written.
      * split; discriminate.
      * intros l' [= <-]. simpl.
        rewrite dom_insert_live by (by eapply heap_load_live).
        apply fresh_not_live.
Qed.
End RightIdentity.

Lemma bind_pure_copies_witness :
  (exists r s', monad_shared_ptr.bind (T := Z) (Some 10%positive)
                  monad_shared_ptr.pure example_state = Some (r, s') /\
                value_of s' r = Some (Holding 2%Z) /\
                (r = None <-> Some 10%positive = None) /\
                forall l, r = Some l -> heap example_state !! l = None) /\
  (exists r s', monad_unique_ptr.bind (T := Z) 2%positive
                  monad_unique_ptr.pure example_state = Some (r, s') /\
                value_of s' r = Some (Holding 2%Z) /\
                (r = None <-> Some 10%positive = None) /\
                forall l, r = Some l -> heap example_state !! l = None).
Proof.
  apply (bind_pure_copies (T := Z) example_state (Some 10%positive)
           2%positive (Holding 2%Z));
    vm_compute; reflexivity.
Defined.

(** ** Functor laws *)

Section FunctorLaws.
Context {V T U W : Type} `{Storable V T} `{Storable V U} `{Storable V W}
        `{MoveCtor T} `{MoveCtor U}.

Lemma map_table_compose (f : T -> U) (g : U -> W) (o : Opt T) :
  map_table g (map_table f o) = map_table (fun x => g (f x)) o.
Proof. by destruct o. Qed.

Lemma map_table_id (o : Opt T) : map_table (fun x => x) o = o.
Proof. by destruct o. Qed.

(** X5: the functor laws hold on values, and [map] is [bind] followed by
    [pure].  For both ownership kinds, mapping the identity gives a pointer
    standing for the same value, and mapping [f] and then [g] gives a
    pointer standing for what mapping their composition gives (for the
    exclusive kind the intermediate pointer is bound to a temporary).  On
    every store [map(f, p)] is the very computation
    [bind(p, \x -> pure(f(x)))]. *)
Theorem functor_laws (s : state V) (p : ptr) (rp : ref) (o : Opt T)
    (f : T -> U) (g : U -> W) :
  value_of s p = Some o -> vars s !! rp = Some p ->
  (yields (monad_shared_ptr.map (fun x : T => x) p) s o /\
   yields (monad_unique_ptr.map (fun x : T => x) rp) s o) /\
  (yields (q ← monad_shared_ptr.map f p; monad_shared_ptr.map g q) s
          (map_table (fun x => g (f x)) o) /\
   yields (monad_shared_ptr.map (fun x => g (f x)) p) s
          (map_table (fun x => g (f x)) o) /\
   yields (q ← monad_unique_ptr.map f rp; t ← new_ref q;
           monad_unique_ptr.map g t) s
          (map_table (fun x => g (f x)) o) /\
   yields (monad_unique_ptr.map (fun x => g (f x)) rp) s
          (map_table (fun x => g (f x)) o)) /\
  (monad_shared_ptr.map f p s =
     monad_shared_ptr.bind p (fun x => monad_shared_ptr.pure (f x)) s /\
   monad_unique_ptr.map f rp s =
     monad_unique_ptr.bind rp (fun x => monad_unique_ptr.pure (f x)) s).
Proof.
  intros Ho Hrp. split_and!.
  - pose proof (shared_map_yields (fun x : T => x) s p o Ho) as Hy.
    by rewrite map_table_id in Hy.
  - pose proof (unique_map_yields (fun x : T => x) s rp p o Hrp Ho) as Hy.
    by rewrite map_table_id in Hy.
  - destruct (shared_map_yields f s p o Ho) as (q & s1 & Hrun & Hq).
    eapply yields_bind; [exact Hrun|].
    rewrite <- map_table_compose. by apply shared_map_yields.
  - by apply shared_map_yields.
  - destruct (unique_map_yields f s rp p o Hrp Ho) as (q & s1 & Hrun & Hq).
    eapply yields_bind; [exact Hrun|].
    eapply yields_bind; [apply run_new_ref|].
    rewrite <- map_table_compose.
    eapply (unique_map_yields g _ _ q); simpl; [apply lookup_insert_eq|done].
  - by eapply unique_map_yields.
  - reflexivity.
  - reflexivity.
Qed.
End FunctorLaws.

Lemma functor_laws_witness :
  let s := example_state in
  let p : ptr := Some 10%positive in
  (yields (monad_shared_ptr.map (fun x : Z => x) p) s (Holding 2%Z) /\
   yields (monad_unique_ptr.map (fun x : Z => x) 2%positive) s
          (Holding 2%Z)) /\
  (yields (q ← monad_shared_ptr.map Z.succ p; monad_shared_ptr.map Z.opp q) s
          (Holding (-3)%Z) /\
   yields (monad_shared_ptr.map (fun x => Z.opp (Z.succ x)) p) s
          (Holding (-3)%Z) /\
   yields (q ← monad_unique_ptr.map Z.succ 2%positive; t ← new_ref q;
           monad_unique_ptr.map Z.opp t) s (Holding (-3)%Z) /\
   yields (monad_unique_ptr.map (fun x => Z.opp (Z.succ x)) 2%positive) s
          (Holding (-3)%Z)).
Proof.
  cbv zeta.
  change (Holding (-3)%Z)
    with (map_table (fun x => Z.opp (Z.succ x)) (Holding 2%Z)).
  destruct (functor_laws (T := Z) (U := Z) (W := Z) example_state
              (Some 10%positive) 2%positive (Holding 2%Z) Z.succ Z.opp)
    as (Hid & Hcomp & _); [vm_compute; reflexivity ..|].
  split; [exact Hid|exact Hcomp].
Defined.

(** ** MonoidA laws *)

Section OrDoLaws.
Context {V T : Type} `{Storable V T}.

Lemma orElse_table_assoc (oa ob oc : Opt T) :
  orElse_table (orElse_table oa ob) oc = orElse_table oa (orElse_table ob oc).
Proof. by destruct oa. Qed.

Lemma orElse_table_id_r (o : Opt T) : orElse_table o Absent = o.
Proof. by destruct o. Qed.

(** The exclusive [orDo] reads its operands and allocates at most. *)
Lemma unique_orDo_spec (s : state V) (ra rb : ref) (a b : ptr)
    (oa ob : Opt T) :
  vars s !! ra = Some a -> vars s !! rb = Some b ->
  value_of s a = Some oa -> value_of s b = Some ob ->
  exists r s', monoidA_unique_ptr.orDo (T := T) ra rb s = Some (r, s') /\
               value_of s' r = Some (orElse_table oa ob) /\
               vars s' = vars s /\
               forall l, is_Some (heap s !! l) -> heap s' !! l = heap s !! l.
Proof.
  intros Hra Hrb Hoa Hob. unfold monoidA_unique_ptr.orDo.
  destruct (value_of_inv _ _ _ Hoa) as [[-> ->]|(la & x & -> & -> & Hx)].
  - destruct (value_of_inv _ _ _ Hob) as [[-> ->]|(lb & y & -> & -> & Hy)].
    + exists None, s. split; [|by split_and!].
      run_step. simpl. by apply run_dup_unique_null.
    + eexists _, _.
      split; [run_step; simpl; by eapply run_dup_unique_holding|].
      split_and!; [apply value_of_new|done|].
      intros l Hl. simpl. rewrite lookup_insert_ne; [done|].
      by apply fresh_ne_live.
  - eexists _, _.
    split; [run_step; simpl; by eapply run_dup_unique_holding|].
    split_and!; [apply value_of_new|done|].
    intros l Hl. simpl. rewrite lookup_insert_ne; [done|].
    by apply fresh_ne_live.
Qed.

Lemma unique_orDo_then (s : state V) (ra rb rc : ref) (a b c : ptr)
    (oa ob oc : Opt T) (k : ref -> M V ptr) (o : Opt T) :
  vars s !! ra = Some a -> vars s !! rb = Some b ->
  value_of s a = Some oa -> value_of s b = Some ob ->
  (forall r s1 t,
     value_of s1 r = Some (orElse_table oa ob) ->
     vars s1 !! t = Some r ->
     (forall x q, vars s !! x = Some q -> vars s1 !! x = Some q) ->
     (forall l, is_Some (heap s !! l) -> heap s1 !! l = heap s !! l) ->
     yields (k t) s1 o) ->
  yields (r ← monoidA_unique_ptr.orDo (T := T) ra rb; t ← new_ref r; k t) s o.
Proof.
  intros Hra Hrb Hoa Hob Hk.
  destruct (unique_orDo_spec s ra rb a b oa ob Hra Hrb Hoa Hob)
    as (r & s1 & Hrun & Hr & Hvars & Hheap).
  eapply yields_bind; [exact Hrun|].
  eapply yields_bind; [apply run_new_ref|].
  apply (Hk r); simpl.
  - done.
  - apply lookup_insert_eq.
  - intros x q Hx. rewrite lookup_insert_ne; [by rewrite Hvars|].
    apply fresh_ne_ref. rewrite Hvars. by rewrite Hx.
  - done.
Qed.

(** X6: [fail] and [orDo] form a monoid.  For the shared kind the laws hold
    on the pointers themselves, on every store: [orDo(fail(), a)] and
    [orDo(a, fail())] return [a], and the two groupings of three operands
    are the same computation.  For the exclusive kind, where every result
    is a copy, they hold on the values the results stand for, whether or
    not operands are the same pointer object. *)
Theorem orDo_monoid_laws (s : state V) (a b c : ptr) (ra rb rc : ref)
    (oa ob oc : Opt T) :
  value_of s a = Some oa -> value_of s b = Some ob -> value_of s c = Some oc ->
  vars s !! ra = Some a -> vars s !! rb = Some b -> vars s !! rc = Some c ->
  (monoidA_shared_ptr.orDo monoidA_shared_ptr.fail a s = Some (a, s) /\
   monoidA_shared_ptr.orDo a monoidA_shared_ptr.fail s = Some (a, s) /\
   (r ← monoidA_shared_ptr.orDo a b; monoidA_shared_ptr.orDo r c) s =
     (r ← monoidA_shared_ptr.orDo b c; monoidA_shared_ptr.orDo a r) s) /\
  (yields (e ← new_ref monoidA_unique_ptr.fail;
           monoidA_unique_ptr.orDo (T := T) e ra) s oa /\
   yields (e ← new_ref monoidA_unique_ptr.fail;
           monoidA_unique_ptr.orDo (T := T) ra e) s oa /\
   exists o : Opt T,
     yields (r ← monoidA_unique_ptr.orDo (T := T) ra rb; t ← new_ref r;
             monoidA_unique_ptr.orDo (T := T) t rc) s o /\
     yields (r ← monoidA_unique_ptr.orDo (T := T) rb rc; t ← new_ref r;
             monoidA_unique_ptr.orDo (T := T) ra t) s o).
Proof.
  intros Hoa Hob Hoc Hra Hrb Hrc. split; split_and!.
  - reflexivity.
  - by destruct a.
  - by destruct a, b.
  - eapply yields_bind; [apply run_new_ref|].
    destruct (unique_orDo_spec
                (State (<[fresh (dom (vars s)) := None]> (vars s)) (heap s))
                (fresh (dom (vars s))) ra None a Absent oa)
      as (r & s' & Hrun & Hr & _); simpl; try done.
    + apply lookup_insert_eq.
    + rewrite lookup_insert_ne; [done|]. apply fresh_ne_ref. by rewrite Hra.
    + by exists r, s'.
  - eapply yields_bind; [apply run_new_ref|].
    destruct (unique_orDo_spec
                (State (<[fresh (dom (vars s)) := None]> (vars s)) (heap s))
                ra (fresh (dom (vars s))) a None oa Absent)
      as (r & s' & Hrun & Hr & _); simpl; try done.
    + rewrite lookup_insert_ne; [done|]. apply fresh_ne_ref. by rewrite Hra.
    + apply lookup_insert_eq.
    + rewrite orElse_table_id_r in Hr. by exists r, s'.
  - exists (orElse_table (orElse_table oa ob) oc). split.
    + eapply (unique_orDo_then s ra rb rc a b c oa ob oc); try done.
      intros r s1 t Hr Ht Hvars Hheap.
      destruct (unique_orDo_spec s1 t rc r c (orElse_table oa ob) oc)
        as (r' & s' & Hrun & Hr' & _); try done.
      * by apply Hvars.
      * eapply value_of_frame; [exact Hoc|]. intros l Hl _. by apply Hheap.
      * by exists r', s'.
    + rewrite orElse_table_assoc.
      eapply (unique_orDo_then s rb rc ra b c a ob oc oa); try done.
      intros r s1 t Hr Ht Hvars Hheap.
      destruct (unique_orDo_spec s1 ra t a r oa (orElse_table ob oc))
        as (r' & s' & Hrun & Hr' & _); try done.
      * by apply Hvars.
      * eapply value_of_frame; [exact Hoa|]. intros l Hl _. by apply Hheap.
      * by exists r', s'.
Qed.
End OrDoLaws.

Lemma orDo_monoid_laws_witness :
  let s := example_state in
  let a := Some 10%positive in
  let b := Some 11%positive in
  (monoidA_shared_ptr.orDo monoidA_shared_ptr.fail a s = Some (a, s) /\
   monoidA_shared_ptr.orDo a monoidA_shared_ptr.fail s = Some (a, s) /\
   (r ← monoidA_shared_ptr.orDo a b; monoidA_shared_ptr.orDo r None) s =
     (r ← monoidA_shared_ptr.orDo b None; monoidA_shared_ptr.orDo a r) s) /\
  (yields (e ← new_ref monoidA_unique_ptr.fail;
           monoidA_unique_ptr.orDo (T := Z) e 2%positive) s (Holding 2%Z) /\
   yields (e ← new_ref monoidA_unique_ptr.fail;
           monoidA_unique_ptr.orDo (T := Z) 2%positive e) s (Holding 2%Z) /\
   exists o : Opt Z,
     yields (r ← monoidA_unique_ptr.orDo (T := Z) 2%positive 3%positive;
             t ← new_ref r;
             monoidA_unique_ptr.orDo (T := Z) t 1%positive) s o /\
     yields (r ← monoidA_unique_ptr.orDo (T := Z) 3%positive 1%positive;
             t ← new_ref r;
             monoidA_unique_ptr.orDo (T := Z) 2%positive t) s o).
Proof.
  cbv zeta.
  apply (orDo_monoid_laws (T := Z) example_state
           (Some 10%positive) (Some 11%positive) None
           2%positive 3%positive 1%positive
           (Holding 2%Z) (Holding 5%Z) Absent);
    vm_compute; reflexivity.
Defined.

(** ** Moving the held value out through an alias *)

Section MovedFrom.
Context {V T U : Type} `{Storable V T} `{Storable V U} `{MoveCtor T}.

Lemma unique_map_step (f : T -> U) (s : state V) (rp : ref) (l : loc)
    (x : T) :
  vars s !! rp = Some (Some l) -> heap_load s l = Some x ->
  exists r s', monad_unique_ptr.map f rp s = Some (r, s') /\
               value_of s' r = Some (Holding (f x)) /\
               vars s' = vars s /\
               heap_load s' l = Some (moved_from x).
Proof.
  intros Hrp Hx. eexists _, _.
  split; [by apply unique_map_holding|].
  split_and!; [apply value_of_written|done|].
  rewrite (@heap_load_insert_ne V T _); [apply heap_load_insert_eq|].
  pose proof (fresh_ne_live
                (State (vars s) (<[l:=to_cell (moved_from x)]> (heap s))) l)
    as Hf.
  simpl in Hf. apply Hf. rewrite lookup_insert_eq. eauto.
Qed.

Lemma shared_map_step (f : T -> U) (s : state V) (l : loc) (x : T) :
  heap_load s l = Some x ->
  exists r s', monad_shared_ptr.map f (Some l) s = Some (r, s') /\
               value_of s' r = Some (Holding (f x)) /\
               heap_load s' l = Some x.
Proof.
  intros Hx. eexists _, _.
  split; [by apply shared_map_holding|].
  split; [apply value_of_new|].
  rewrite (@heap_load_insert_ne V T _); [done|].
  apply fresh_ne_live. exact (heap_load_live _ _ _ Hx).
Qed.

(** X7: the exclusive [map] and [bind] take the pointer by reference to
    const, yet move the held value out of the object it owns.  After [map]
    of a pointer object that owns [x], the object holds the moved-from [x]
    and the pointer object is unchanged; a second [map] of the same pointer
    object therefore applies the function to the moved-from value, and
    [bind] runs its function on a store where the object is moved from.
    The shared [map] reads the object only: mapping the same pointer twice
    gives twice the image of [x]. *)
Theorem map_by_alias_moves_value (f : T -> U) (s : state V) (rp : ref)
    (l : loc) (x : T) :
  vars s !! rp = Some (Some l) -> heap_load s l = Some x ->
  (exists r1 s1 r2 s2,
     monad_unique_ptr.map f rp s = Some (r1, s1) /\
     value_of s1 r1 = Some (Holding (f x)) /\
     vars s1 = vars s /\
     value_of s1 (Some l) = Some (Holding (moved_from x)) /\
     monad_unique_ptr.map f rp s1 = Some (r2, s2) /\
     value_of s2 r2 = Some (Holding (f (moved_from x))) /\
     value_of s2 (Some l) = Some (Holding (moved_from (moved_from x)))) /\
  (exists s1 : state V,
     vars s1 = vars s /\
     value_of s1 (Some l) = Some (Holding (moved_from x)) /\
     forall k : T -> M V ptr, monad_unique_ptr.bind rp k s = k x s1) /\
  (exists r1 s1 r2 s2,
     monad_shared_ptr.map f (Some l) s = Some (r1, s1) /\
     value_of s1 r1 = Some (Holding (f x)) /\
     value_of s1 (Some l) = Some (Holding x) /\
     monad_shared_ptr.map f (Some l) s1 = Some (r2, s2) /\
     value_of s2 r2 = Some (Holding (f x)) /\
     value_of s2 (Some l) = Some (Holding x)).
Proof.
  intros Hrp Hx. split_and!.
  - destruct (unique_map_step f s rp l x Hrp Hx)
      as (r1 & s1 & Hrun1 & Hr1 & Hv1 & Hl1).
    destruct (unique_map_step f s1 rp l (moved_from x))
      as (r2 & s2 & Hrun2 & Hr2 & Hv2 & Hl2); [by rewrite Hv1|done|].
    exists r1, s1, r2, s2.
    split_and!; try done; by apply value_of_holding.
  - exists (State (vars s) (<[l := to_cell (moved_from x)]> (heap s))).
    split_and!; [done|apply value_of_written|].
    intros k. by apply unique_bind_holding.
  - destruct (shared_map_step f s l x Hx) as (r1 & s1 & Hrun1 & Hr1 & Hl1).
    destruct (shared_map_step f s1 l x Hl1) as (r2 & s2 & Hrun2 & Hr2 & Hl2).
    exists r1, s1, r2, s2.
    split_and!; try done; by apply value_of_holding.
Qed.
End MovedFrom.

(** On the example store the pointer object [5] owns a pointer to the
    integer at [14], and a moved-from pointer is null: the first [map]
    through [5] sees that pointer, the second one a null pointer. *)
Lemma map_by_alias_moves_value_witness :
  exists r1 s1 r2 s2,
    monad_unique_ptr.map (T := ptr) (U := Z)
      (fun p => if nonnull p then 1%Z else 0%Z) 5%positive example_state
      = Some (r1, s1) /\
    value_of s1 r1 = Some (Holding 1%Z) /\
    vars s1 = vars example_state /\
    value_of (T := ptr) s1 (Some 13%positive) = Some (Holding None) /\
    monad_unique_ptr.map (T := ptr) (U := Z)
      (fun p => if nonnull p then 1%Z else 0%Z) 5%positive s1
      = Some (r2, s2) /\
    value_of s2 r2 = Some (Holding 0%Z) /\
    value_of (T := ptr) s2 (Some 13%positive) = Some (Holding None).
Proof.
  destruct (map_by_alias_moves_value (T := ptr) (U := Z)
              (fun p => if nonnull p then 1%Z else 0%Z)
              example_state 5%positive 13%positive (Some 14%positive))
    as (Hmap & _); [vm_compute; reflexivity ..|].
  exact Hmap.
Defined.

(** ** Exclusive ownership is an invariant *)

Section Ownership.
Context {V : Type}.





End Ownership.



Section OwnershipKept.
Context {V T U : Type} `{Storable V T} `{Storable V U} `{monoid T}
        `{MoveCtor T}.

End OwnershipKept.

Section OwnershipInvariant.
Context {V T U : Type} `{Storable V T} `{Storable V U} `{monoid T}
        `{MoveCtor T}.

End OwnershipInvariant.




(** ** Operations that leave their operands alone *)

Section Allocation.
Context {V T U : Type} `{Storable V T} `{Storable V U} `{monoid T}
        `{MoveCtor T}.

Lemma alloc_subseteq (h : gmap loc V) (v : V) : h ⊆ <[fresh (dom h) := v]> h.
Proof. apply insert_subseteq, not_elem_of_dom, is_fresh. Qed.

Lemma only_allocates_new {A} (m : M V A) (s : state V) (r : A) (v : V) :
  m s = Some (r, State (vars s) (<[fresh (dom (heap s)) := v]> (heap s))) ->
  only_allocates m s.
Proof.
  intros Hrun. eexists _, _. split; [exact Hrun|].
  split; [done|apply alloc_subseteq].
Qed.

Lemma only_allocates_none {A} (m : M V A) (s : state V) (r : A) :
  m s = Some (r, s) -> only_allocates m s.
Proof. intros Hrun. by exists r, s. Qed.

Lemma value_of_subseteq (s s' : state V) (q : ptr) (o : Opt T) :
  heap s ⊆ heap s' -> value_of s q = Some o -> value_of s' q = Some o.
Proof.
  intros Hsub Hq.
  destruct (value_of_inv _ _ _ Hq) as [[-> ->]|(l & x & -> & -> & Hx)];
    [done|].
  apply value_of_holding. unfold heap_load in *.
  destruct (heap s !! l) as [v|] eqn:Hl; [|discriminate].
  by rewrite (lookup_weaken _ _ _ _ Hl Hsub).
Qed.

(** X9: the operations of the shared kind, and those of the exclusive kind
    that only copy -- [append(const&, const&)], [orDo] and [pure] -- return
    on well-formed operands and leave every pointer object and every live
    object as it was: all they may do to the store is allocate, so each
    pointer stands for the same value afterwards.  [orDo] of the shared
    kind does not even allocate. *)
Theorem copying_operations_only_allocate (s : state V) (a b : ptr)
    (ra rb : ref) (oa ob : Opt T) (f : T -> U) (x : T) :
  value_of s a = Some oa -> value_of s b = Some ob ->
  vars s !! ra = Some a -> vars s !! rb = Some b ->
  (only_allocates (monoid_shared_ptr.append a b) s /\
   only_allocates (monad_shared_ptr.map f a) s /\
   only_allocates (monad_shared_ptr.pure x) s /\
   only_allocates (monoid_unique_ptr.append_cc ra rb) s /\
   only_allocates (monoidA_unique_ptr.orDo (T := T) ra rb) s /\
   only_allocates (monad_unique_ptr.pure x) s) /\
  monoidA_shared_ptr.orDo a b s = Some (if nonnull a then a else b, s) /\
  (forall (m : M V ptr) (q : ptr) (o : Opt T),
     only_allocates m s -> value_of s q = Some o ->
     exists r s', m s = Some (r, s') /\ value_of s' q = Some o).
Proof.
  intros Hoa Hob Hra Hrb. split_and!.
  - destruct (value_of_inv _ _ _ Hoa) as [[-> ->]|(la & y & -> & -> & Hy)].
    + by eapply only_allocates_none.
    + destruct (value_of_inv _ _ _ Hob) as [[-> ->]|(lb & w & -> & -> & Hw)].
      * by eapply only_allocates_none.
      * eapply only_allocates_new. by apply shared_append_both.
  - destruct (value_of_inv _ _ _ Hoa) as [[-> ->]|(la & y & -> & -> & Hy)].
    + by eapply only_allocates_none.
    + eapply only_allocates_new. by apply shared_map_holding.
  - eapply only_allocates_new. apply run_shared_pure.
  - destruct (value_of_inv _ _ _ Hoa) as [[-> ->]|(la & y & -> & -> & Hy)];
      destruct (value_of_inv _ _ _ Hob) as [[-> ->]|(lb & w & -> & -> & Hw)].
    + eapply only_allocates_none. by apply append_cc_neither.
    + eapply only_allocates_new. by eapply append_cc_right.
    + eapply only_allocates_new. by eapply append_cc_left.
    + eapply only_allocates_new. by eapply append_cc_both.
  - unfold monoidA_unique_ptr.orDo.
    destruct (value_of_inv _ _ _ Hoa) as [[-> ->]|(la & y & -> & -> & Hy)].
    + destruct (value_of_inv _ _ _ Hob) as [[-> ->]|(lb & w & -> & -> & Hw)].
      * eapply only_allocates_none.
        run_step. simpl. by apply run_dup_unique_null.
      * eapply only_allocates_new.
        run_step. simpl. by eapply run_dup_unique_holding.
    + eapply only_allocates_new.
      run_step. simpl. by eapply run_dup_unique_holding.
  - eapply only_allocates_new. apply run_unique_pure.
  - by destruct a.
  - intros m q o (r & s' & Hrun & _ & Hsub) Hq. exists r, s'.
    split; [done|]. by eapply value_of_subseteq.
Qed.
End Allocation.

Lemma copying_operations_only_allocate_witness :
  let s := example_state in
  only_allocates
    (monoid_shared_ptr.append (T := Z) (Some 10%positive) (Some 11%positive))
    s /\
  only_allocates (monoid_unique_ptr.append_cc (T := Z) 2%positive 3%positive)
    s /\
  only_allocates (monoidA_unique_ptr.orDo (T := Z) 2%positive 3%positive) s.
Proof.
  cbv zeta.
  destruct (copying_operations_only_allocate (T := Z) (U := Z) example_state
              (Some 10%positive) (Some 11%positive) 2%positive 3%positive
              (Holding 2%Z) (Holding 5%Z) Z.opp 1%Z)
    as ((Happ & _ & _ & Hcc & Hor & _) & _); [vm_compute; reflexivity ..|].
  by split_and!.
Defined.

(** ** Folding a mapped pointer *)

Section FoldMap.
Context {V T U W : Type} `{Storable V T} `{Storable V U} `{MoveCtor T}.

Lemma fold_table_map (f : T -> U) (fn : W -> U -> W) (z : W) (o : Opt T) :
  fold_table fn z (map_table f o) = fold_table (fun acc x => fn acc (f x)) z o.
Proof. by destruct o. Qed.

Lemma shared_fold_yields (m : M V ptr) (s : state V) (o : Opt U)
    (fn : W -> U -> W) (z : W) :
  yields m s o ->
  exists s',
    (r ← m; foldable_shared_ptr.foldl fn z r) s = Some (fold_table fn z o, s') /\
    (r ← m; foldable_shared_ptr.foldr fn z r) s = Some (fold_table fn z o, s').
Proof.
  intros (r & s' & Hrun & Hr). exists s'. rewrite !run_bind, Hrun.
  cbv beta iota.
  destruct (value_of_inv _ _ _ Hr) as [[-> ->]|(l & y & -> & -> & Hy)].
  - by split.
  - unfold foldable_shared_ptr.foldl, foldable_shared_ptr.foldr. simpl.
    split; run_step; reflexivity.
Qed.

Lemma unique_fold_yields (m : M V ptr) (s : state V) (o : Opt U)
    (fn : W -> U -> W) (z : W) :
  yields m s o ->
  exists s',
    (r ← m; t ← new_ref r; foldable_unique_ptr.foldl fn z t) s
      = Some (fold_table fn z o, s') /\
    (r ← m; t ← new_ref r; foldable_unique_ptr.foldr fn z t) s
      = Some (fold_table fn z o, s').
Proof.
  intros (r & s' & Hrun & Hr).
  exists (State (<[fresh (dom (vars s')) := r]> (vars s')) (heap s')).
  rewrite !run_bind, Hrun. cbv beta iota. rewrite !run_bind.
  rewrite !run_new_ref. cbv beta iota.
  destruct (@fold_runs V U W _
              (State (<[fresh (dom (vars s')) := r]> (vars s')) (heap s'))
              r (fresh (dom (vars s'))) o fn z)
    as (_ & _ & Hl & Hr'); [done|apply lookup_insert_eq|].
  by split.
Qed.

(** X10: folding the result of [map] is folding the operand with the
    mapped function applied first.  For both kinds, [foldl] and [foldr] of
    [map(f, p)] with [fn] and seed [z] return what a fold of [p] with the
    composed function returns: [z] when [p] is empty and [fn z (f x)] when
    [p] holds [x].  The exclusive result is a temporary bound to the
    reference parameter of the fold. *)
Theorem fold_after_map (s : state V) (p : ptr) (rp : ref) (o : Opt T)
    (f : T -> U) (fn : W -> U -> W) (z : W) :
  value_of s p = Some o -> vars s !! rp = Some p ->
  let u := fold_table (fun acc x => fn acc (f x)) z o in
  (exists s',
     (r ← monad_shared_ptr.map f p; foldable_shared_ptr.foldl fn z r) s
       = Some (u, s') /\
     (r ← monad_shared_ptr.map f p; foldable_shared_ptr.foldr fn z r) s
       = Some (u, s')) /\
  (exists s',
     (r ← monad_unique_ptr.map f rp; t ← new_ref r;
      foldable_unique_ptr.foldl fn z t) s = Some (u, s') /\
     (r ← monad_unique_ptr.map f rp; t ← new_ref r;
      foldable_unique_ptr.foldr fn z t) s = Some (u, s')).
Proof.
  intros Ho Hrp u. unfold u. rewrite <- fold_table_map. split.
  - apply shared_fold_yields. by apply shared_map_yields.
  - apply unique_fold_yields. by eapply unique_map_yields.
Qed.
End FoldMap.

Lemma fold_after_map_witness :
  let s := example_state in
  (exists s',
     (r ← monad_shared_ptr.map (T := Z) (U := Z) Z.succ (Some 11%positive);
      foldable_shared_ptr.foldl (T := Z) Z.sub 1%Z r) s
       = Some ((-5)%Z, s')) /\
  (exists s',
     (r ← monad_unique_ptr.map (T := Z) (U := Z) Z.succ 3%positive;
      t ← new_ref r;
      foldable_unique_ptr.foldr (T := Z) Z.sub 1%Z t) s
       = Some ((-5)%Z, s')).
Proof.
  cbv zeta.
  destruct (fold_after_map (T := Z) (U := Z) example_state
              (Some 11%positive) 3%positive (Holding 5%Z) Z.succ Z.sub 1%Z)
    as ((s1 & Hl & _) & (s2 & _ & Hr)); [vm_compute; reflexivity ..|].
  split; [by exists s1|by exists s2].
Defined.

(** ** Copying an exclusive pointer *)

Section Copies.
Context {V T : Type} `{Storable V T} `{monoid T} `{MoveCtor T}.

(** X11: the two helpers that copy an exclusive pointer agree on a pointer
    that holds a value: both return the address of a new object holding the
    same value and leave the operand alone.  They differ on an empty
    pointer: [_dtl::dup_unique] tests its operand and returns an empty
    pointer, [monoid::dup] dereferences it without a test, which is
    undefined. *)
Theorem dup_agrees_on_values (s : state V) (rp : ref) (p : ptr) (o : Opt T) :
  vars s !! rp = Some p -> value_of s p = Some o ->
  match o with
  | Holding x =>
      monoid_unique_ptr.dup rp s = _dtl.dup_unique (T := T) rp s /\
      exists l, heap s !! l = None /\
                monoid_unique_ptr.dup rp s =
                  Some (Some l, State (vars s) (<[l := to_cell x]> (heap s)))
  | Absent =>
      monoid_unique_ptr.dup (T := T) rp s = None /\
      _dtl.dup_unique (T := T) rp s = Some (None, s)
  end.
Proof.
  intros Hrp Ho.
  destruct (value_of_inv _ _ _ Ho) as [[-> ->]|(l & x & -> & -> & Hx)].
  - split; [|by apply run_dup_unique_null].
    unfold monoid_unique_ptr.dup. by run_step.
  - split.
    + erewrite run_dup, run_dup_unique_holding by eassumption. reflexivity.
    + exists (fresh (dom (heap s))). split; [apply fresh_not_live|].
      by eapply run_dup.
Qed.

(** X12: [orDo] and [append] are the same computation unless both operands
    hold a value: with at most one value there is nothing to combine, and
    both return the operand that holds one (shared kind) or a copy of it
    (exclusive kind, operands by reference to const). *)
Theorem orDo_agrees_with_append (s : state V) (a b : ptr) (ra rb : ref)
    (oa ob : Opt T) :
  value_of s a = Some oa -> value_of s b = Some ob ->
  vars s !! ra = Some a -> vars s !! rb = Some b ->
  nonnull a && nonnull b = false ->
  monoidA_shared_ptr.orDo a b s = monoid_shared_ptr.append (T := T) a b s /\
  monoidA_unique_ptr.orDo (T := T) ra rb s =
    monoid_unique_ptr.append_cc (T := T) ra rb s.
Proof.
  intros Hoa Hob Hra Hrb Hnn. unfold monoidA_unique_ptr.orDo.
  destruct (value_of_inv _ _ _ Hoa) as [[-> ->]|(la & x & -> & -> & Hx)];
    destruct (value_of_inv _ _ _ Hob) as [[-> ->]|(lb & y & -> & -> & Hy)];
    try discriminate Hnn.
  - split; [done|]. run_step. simpl.
    erewrite append_cc_neither by done. by apply run_dup_unique_null.
  - split; [done|]. run_step. simpl.
    erewrite append_cc_right by done. by eapply run_dup_unique_holding.
  - split; [done|]. run_step. simpl.
    erewrite append_cc_left by done. by eapply run_dup_unique_holding.
Qed.
End Copies.

Lemma dup_agrees_on_values_witness :
  monoid_unique_ptr.dup (T := Z) 1%positive example_state = None /\
  _dtl.dup_unique (T := Z) 1%positive example_state
    = Some (None, example_state).
Proof.
  apply (dup_agrees_on_values (T := Z) example_state 1%positive None Absent);
    vm_compute; reflexivity.
Defined.

Lemma orDo_agrees_with_append_witness :
  monoidA_shared_ptr.orDo (Some 10%positive) None example_state =
    monoid_shared_ptr.append (T := Z) (Some 10%positive) None example_state /\
  monoidA_unique_ptr.orDo (T := Z) 2%positive 1%positive example_state =
    monoid_unique_ptr.append_cc (T := Z) 2%positive 1%positive example_state.
Proof.
  apply (orDo_agrees_with_append (T := Z) example_state
           (Some 10%positive) None 2%positive 1%positive
           (Holding 2%Z) Absent);
    vm_compute; reflexivity.
Defined.
